(** * Flappy Bird simulation core (src/app/game.tsx)

    A shallow embedding of the game component's state and of its handlers
    [resetGame], [startGame], [endGame], [incrementScore], [handleTap] and of
    the two interval callbacks installed by [startGame].

    Modelling conventions.
    - JavaScript numbers are modelled as exact rationals in lowest terms
      ([Qc]), so that equal numbers are equal terms; rounding of IEEE
      doubles is not modelled.
    - React state, shared values and refs are fields of one record which the
      handlers thread explicitly.  A state setter takes effect at once, and
      a handler always reads the current state.
    - [runOnJS(f)()] is written as a call of [f] where it stands, and the
      updater handed to [setPipes] runs where [setPipes] is called.  The
      state after a tick does not depend on when within the tick [endGame]
      runs ([gameLoop_terminates_last]).
    - [setInterval] / [clearInterval] act on an explicit table of live
      intervals; a timer event only runs a callback found in that table.
    - [Math.random()] is an input of the spawn callback. *)

From Stdlib Require Import String.
From Stdlib Require Import QArith Qcanon ZArith List Bool Lia Lqa Sorted.
Import ListNotations.

Open Scope Qc_scope.

(** ** Constants (game.tsx, lines 22-26 and 93-94) *)

Definition GRAVITY : Qc := Q2Qc (6 # 10).
Definition JUMP_HEIGHT : Qc := - Q2Qc 12.
Definition PIPE_WIDTH : Qc := Q2Qc 80.
Definition PIPE_GAP : Qc := Q2Qc 200.
Definition PIPE_SPEED : Qc := Q2Qc 2.

Definition birdX : Qc := Q2Qc 100.
Definition birdRadius : Qc := Q2Qc 20.

(** Strict comparison on rationals, as a boolean ([a < b] in the source). *)
Definition Qcltb (a b : Qc) : bool :=
  match a ?= b with
  | Lt => true
  | _ => false
  end.

(** ** Data *)

(** [interface Pipe] *)
Record Pipe : Type := mkPipe {
  x : Qc;
  topHeight : Qc;
  bottomHeight : Qc;
  passed : bool
}.

(** The result of [useWindowDimensions()]. *)
Record Dimensions : Type := mkDimensions {
  width : Qc;
  height : Qc
}.

(** What is assigned to [birdRotation.value]: a plain number or one of the
    animation objects built by [withTiming] and [withSequence]. *)
Inductive Animation : Type :=
| Value (v : Qc)
| WithTiming (toValue : Qc) (duration : option Qc)
| WithSequence (first second : Animation).

(** The two callbacks handed to [setInterval]. *)
Inductive Callback : Type :=
| GameLoop
| PipeGeneration.

(** Interval handles.  They are objects ([NodeJS.Timeout]), hence truthy. *)
Definition TimerId : Type := positive.

Record Game : Type := mkGame {
  isGameStarted : bool;
  isGameOver : bool;
  score : Z;
  pipes : list Pipe;
  birdY : Qc;
  birdVelocity : Qc;
  birdRotation : Animation;
  gameLoopRef : option TimerId;
  pipeGenerationRef : option TimerId;
  (* host timer table *)
  intervals : list (TimerId * Callback);
  nextTimer : TimerId
}.

(** The lifecycle phase read off the two flags (the overlay at line 292 and
    the branches of [handleTap]). *)
Inductive Phase : Type := Idle | Playing | Ended.

Definition phase (s : Game) : Phase :=
  if isGameOver s then Ended
  else if isGameStarted s then Playing
  else Idle.

(** The state at mount (lines 37-49). *)
Definition initialGame (d : Dimensions) : Game :=
  {| isGameStarted := false;
     isGameOver := false;
     score := 0%Z;
     pipes := [];
     birdY := height d / (Q2Qc 2);
     birdVelocity := 0;
     birdRotation := Value 0;
     gameLoopRef := None;
     pipeGenerationRef := None;
     intervals := [];
     nextTimer := 1%positive |}.

(** ** Field updates *)

Definition setIsGameStarted (b : bool) (s : Game) : Game :=
  mkGame b (isGameOver s) (score s) (pipes s) (birdY s) (birdVelocity s)
         (birdRotation s) (gameLoopRef s) (pipeGenerationRef s)
         (intervals s) (nextTimer s).

Definition setIsGameOver (b : bool) (s : Game) : Game :=
  mkGame (isGameStarted s) b (score s) (pipes s) (birdY s) (birdVelocity s)
         (birdRotation s) (gameLoopRef s) (pipeGenerationRef s)
         (intervals s) (nextTimer s).

Definition setScore (n : Z) (s : Game) : Game :=
  mkGame (isGameStarted s) (isGameOver s) n (pipes s) (birdY s)
         (birdVelocity s) (birdRotation s) (gameLoopRef s)
         (pipeGenerationRef s) (intervals s) (nextTimer s).

Definition setPipes (ps : list Pipe) (s : Game) : Game :=
  mkGame (isGameStarted s) (isGameOver s) (score s) ps (birdY s)
         (birdVelocity s) (birdRotation s) (gameLoopRef s)
         (pipeGenerationRef s) (intervals s) (nextTimer s).

Definition setBirdY (y : Qc) (s : Game) : Game :=
  mkGame (isGameStarted s) (isGameOver s) (score s) (pipes s) y
         (birdVelocity s) (birdRotation s) (gameLoopRef s)
         (pipeGenerationRef s) (intervals s) (nextTimer s).

Definition setBirdVelocity (v : Qc) (s : Game) : Game :=
  mkGame (isGameStarted s) (isGameOver s) (score s) (pipes s) (birdY s) v
         (birdRotation s) (gameLoopRef s) (pipeGenerationRef s)
         (intervals s) (nextTimer s).

Definition setBirdRotation (a : Animation) (s : Game) : Game :=
  mkGame (isGameStarted s) (isGameOver s) (score s) (pipes s) (birdY s)
         (birdVelocity s) a (gameLoopRef s) (pipeGenerationRef s)
         (intervals s) (nextTimer s).

Definition setGameLoopRef (r : option TimerId) (s : Game) : Game :=
  mkGame (isGameStarted s) (isGameOver s) (score s) (pipes s) (birdY s)
         (birdVelocity s) (birdRotation s) r (pipeGenerationRef s)
         (intervals s) (nextTimer s).

Definition setPipeGenerationRef (r : option TimerId) (s : Game) : Game :=
  mkGame (isGameStarted s) (isGameOver s) (score s) (pipes s) (birdY s)
         (birdVelocity s) (birdRotation s) (gameLoopRef s) r
         (intervals s) (nextTimer s).

(** ** Host timers *)

(** [setInterval(cb, _)]: registers [cb] under a fresh handle. *)
Definition setInterval (cb : Callback) (s : Game) : TimerId * Game :=
  let id := nextTimer s in
  (id,
   mkGame (isGameStarted s) (isGameOver s) (score s) (pipes s) (birdY s)
          (birdVelocity s) (birdRotation s) (gameLoopRef s)
          (pipeGenerationRef s) (intervals s ++ [(id, cb)]) (Pos.succ id)).

(** [clearInterval(id)]: drops the entry; unknown handles are ignored. *)
Definition clearInterval (id : TimerId) (s : Game) : Game :=
  mkGame (isGameStarted s) (isGameOver s) (score s) (pipes s) (birdY s)
         (birdVelocity s) (birdRotation s) (gameLoopRef s)
         (pipeGenerationRef s)
         (filter (fun e => negb (Pos.eqb (fst e) id)) (intervals s))
         (nextTimer s).

(** [if (ref.current) clearInterval(ref.current)] *)
Definition clearRef (r : option TimerId) (s : Game) : Game :=
  match r with
  | Some id => clearInterval id s
  | None => s
  end.

(** ** Handlers *)

(** [resetGame] (lines 51-59) *)
Definition resetGame (d : Dimensions) (s : Game) : Game :=
  let s := setBirdY (height d / (Q2Qc 2)) s in
  let s := setBirdVelocity 0 s in
  let s := setBirdRotation (Value 0) s in
  let s := setScore 0%Z s in
  let s := setPipes [] s in
  let s := setIsGameOver false s in
  setIsGameStarted false s.

(** [endGame] (lines 137-145) *)
Definition endGame (s : Game) : Game :=
  let s := setIsGameOver true s in
  let s := clearRef (gameLoopRef s) s in
  clearRef (pipeGenerationRef s) s.

(** [incrementScore] (lines 147-149) *)
Definition incrementScore (s : Game) : Game :=
  setScore (score s + 1)%Z s.

(** Modelled from the spec: [interpolate] of react-native-reanimated is
    not among the sources.  The specification describes the rotation target
    as the velocity mapped from a velocity range to a rotation-angle range
    and clamped at the range edges; line 77 gives the ranges, [-10, 10] and
    [-20, 90]. *)
Definition interpolate (v : Qc) : Qc :=
  if Qcltb v (- Q2Qc 10) then - Q2Qc 20
  else if Qcltb (Q2Qc 10) v then Q2Qc 90
  else - Q2Qc 20 + (v - - Q2Qc 10) * ((Q2Qc 90) - - Q2Qc 20)
                    / ((Q2Qc 10) - - Q2Qc 10).

(** Lines 72-78: gravity, position, rotation target. *)
Definition integrate (s : Game) : Game :=
  let s := setBirdVelocity (birdVelocity s + GRAVITY) s in
  let s := setBirdY (birdY s + birdVelocity s) s in
  setBirdRotation (WithTiming (interpolate (birdVelocity s)) None) s.

(** Lines 81-83: the ground and ceiling test.  [endGame] is called where the
    source has [runOnJS(endGame)()]; the state after the tick is the same
    wherever in the tick that call is placed ([gameLoop_terminates_last]). *)
Definition hitsBoundary (d : Dimensions) (y : Qc) : bool :=
  Qcltb (height d - Q2Qc 100) y || Qcltb y (Q2Qc 50).

Definition checkBoundary (d : Dimensions) (s : Game) : Game :=
  if hitsBoundary d (birdY s) then endGame s else s.

(** Line 87-90: the spread copy with [x] moved left. *)
Definition advance (p : Pipe) : Pipe :=
  mkPipe (x p - PIPE_SPEED) (topHeight p) (bottomHeight p) (passed p).

(** Lines 98-103: the collision condition. *)
Definition collides (d : Dimensions) (y : Qc) (p : Pipe) : bool :=
  Qcltb (x p) (birdX + birdRadius)
  && Qcltb (birdX - birdRadius) (x p + PIPE_WIDTH)
  && (Qcltb (y - birdRadius) (topHeight p)
      || Qcltb (height d - bottomHeight p) (y + birdRadius)).

(** Line 109: the scoring condition. *)
Definition passes (p : Pipe) : bool :=
  negb (passed p) && Qcltb (x p + PIPE_WIDTH) birdX.

(** [pipe.passed = true] *)
Definition markPassed (p : Pipe) : Pipe :=
  mkPipe (x p) (topHeight p) (bottomHeight p) true.

(** Lines 97-113: the [for ... of] loop over the moved pipes.  It returns the
    pipes as the loop leaves them, and the state after the calls of [endGame]
    and [incrementScore] it made. *)
Fixpoint scanPipes (d : Dimensions) (y : Qc) (ps : list Pipe) (s : Game)
  : list Pipe * Game :=
  match ps with
  | [] => ([], s)
  | p :: rest =>
      if collides d y p then (p :: rest, endGame s)
      else if passes p then
        let '(rest', s') := scanPipes d y rest (incrementScore s) in
        (markPassed p :: rest', s')
      else
        let '(rest', s') := scanPipes d y rest s in
        (p :: rest', s')
  end.

(** Line 116: the pipes kept by the filter. *)
Definition onScreen (p : Pipe) : bool := Qcltb (- PIPE_WIDTH) (x p).

(** Lines 86-117: the call of [setPipes] with its updater. *)
Definition updatePipes (d : Dimensions) (s : Game) : Game :=
  let newPipes := map advance (pipes s) in
  let '(scanned, s') := scanPipes d (birdY s) newPipes s in
  setPipes (filter onScreen scanned) s'.

(** Lines 70-118: one run of the game-loop interval callback. *)
Definition gameLoop (d : Dimensions) (s : Game) : Game :=
  updatePipes d (checkBoundary d (integrate s)).

(** Lines 121-134: one run of the pipe-generation interval callback, with
    [rnd] the value returned by [Math.random()]. *)
Definition newPipe (d : Dimensions) (rnd : Qc) : Pipe :=
  let topHeight := rnd * (height d - PIPE_GAP - Q2Qc 200) + (Q2Qc 100) in
  let bottomHeight := height d - topHeight - PIPE_GAP in
  mkPipe (width d) topHeight bottomHeight false.

Definition generatePipe (d : Dimensions) (rnd : Qc) (s : Game) : Game :=
  setPipes (pipes s ++ [newPipe d rnd]) s.

(** [startGame] (lines 61-135) *)
Definition startGame (d : Dimensions) (s : Game) : Game :=
  if isGameOver s then resetGame d s
  else
    let s := setIsGameStarted true s in
    let '(g, s) := setInterval GameLoop s in
    let s := setGameLoopRef (Some g) s in
    let '(p, s) := setInterval PipeGeneration s in
    setPipeGenerationRef (Some p) s.

(** The jump of lines 162-167. *)
Definition jump (s : Game) : Game :=
  let s := setBirdVelocity JUMP_HEIGHT s in
  setBirdRotation
    (WithSequence (WithTiming (- Q2Qc 20) (Some (Q2Qc 100)))
                  (WithTiming 0 (Some (Q2Qc 200)))) s.

(** [handleTap] (lines 151-168) *)
Definition handleTap (d : Dimensions) (s : Game) : Game :=
  if negb (isGameStarted s) && negb (isGameOver s) then startGame d s
  else if isGameOver s then resetGame d s
  else jump s.

(** ** The event loop *)

(** What the host can deliver: the activate input, or the firing of an
    interval handle (carrying the random number the callback would draw). *)
Inductive Event : Type :=
| Activate
| TimerFires (id : TimerId) (rnd : Qc).

Definition lookupInterval (id : TimerId) (s : Game) : option Callback :=
  match find (fun e => Pos.eqb (fst e) id) (intervals s) with
  | Some e => Some (snd e)
  | None => None
  end.

Definition step (d : Dimensions) (ev : Event) (s : Game) : Game :=
  match ev with
  | Activate => handleTap d s
  | TimerFires id rnd =>
      match lookupInterval id s with
      | Some GameLoop => gameLoop d s
      | Some PipeGeneration => generatePipe d rnd s
      | None => s
      end
  end.

Definition run (d : Dimensions) (evs : list Event) (s : Game) : Game :=
  fold_left (fun s ev => step d ev s) evs s.

Definition isTimerEvent (ev : Event) : bool :=
  match ev with
  | Activate => false
  | TimerFires _ _ => true
  end.

(** ** Sample inputs *)

(** An 800-unit playfield, 400 wide. *)
Definition sampleDims : Dimensions := mkDimensions (Q2Qc 400) (Q2Qc 800).

(** The game after the first activate input. *)
Definition samplePlaying : Game :=
  step sampleDims Activate (initialGame sampleDims).

(** A game that ran into the ground: one pipe is spawned, then the bird
    falls for 32 ticks without any activate input. *)
Definition sampleEndedEvents : list Event :=
  Activate :: TimerFires 2%positive (Q2Qc (1 # 2))
           :: repeat (TimerFires 1%positive 0) 32.

Definition sampleEnded : Game :=
  run sampleDims sampleEndedEvents (initialGame sampleDims).

(** A game about to hit a pipe: a pipe with its top barrier 175 high is
    spawned at the start, and the bird is kept in the air by five activate
    inputs over 190 ticks.  The pipe is then at 20, the bird at 349 and
    falling at 11.4 per tick. *)
Definition sampleAtPipeEvents : list Event :=
  let tick := TimerFires 1%positive 0 in
  Activate :: TimerFires 2%positive (Q2Qc (3 # 16))
    :: Activate :: repeat tick 34
    ++ Activate :: repeat tick 39
    ++ Activate :: repeat tick 39
    ++ Activate :: repeat tick 39
    ++ Activate :: repeat tick 39.

Definition sampleAtPipe : Game :=
  run sampleDims sampleAtPipeEvents (initialGame sampleDims).

(** A game about to pass a pipe: as [sampleAtPipe], but the top barrier is
    200 high, so that the bird stays inside the gap. *)
Definition sampleScoringEvents : list Event :=
  let tick := TimerFires 1%positive 0 in
  Activate :: TimerFires 2%positive (Q2Qc (1 # 4))
    :: Activate :: repeat tick 34
    ++ Activate :: repeat tick 39
    ++ Activate :: repeat tick 39
    ++ Activate :: repeat tick 39
    ++ Activate :: repeat tick 39.

Definition sampleScoring : Game :=
  run sampleDims sampleScoringEvents (initialGame sampleDims).

(** A game one tick above the ground: one pipe is spawned, then the bird
    falls for 31 ticks. *)
Definition sampleFallingEvents : list Event :=
  Activate :: TimerFires 2%positive (Q2Qc (1 # 2))
           :: repeat (TimerFires 1%positive 0) 31.

Definition sampleFalling : Game :=
  run sampleDims sampleFallingEvents (initialGame sampleDims).

(** The placement of a pipe, without its flag. *)
Definition geometry (p : Pipe) : Qc * Qc * Qc :=
  (x p, topHeight p, bottomHeight p).


(** The flag of a pipe went from false to true between [before] and
    [after]. *)
Definition newlyPassed (pp : Pipe * Pipe) : bool :=
  negb (passed (fst pp)) && passed (snd pp).

(** What the presentation layer and [handleTap] read. *)
Definition observable (s : Game)
  : bool * bool * Z * list Pipe * Qc * Qc * Animation :=
  (isGameStarted s, isGameOver s, score s, pipes s,
   birdY s, birdVelocity s, birdRotation s).

(** ** The tick in the order of the specification *)



(** ** Reachable states and the timer discipline *)

Definition reachable (d : Dimensions) (s : Game) : Prop :=
  exists evs, s = run d evs (initialGame d).

(** While playing, exactly the two intervals of [startGame] are live and the
    refs hold their handles; otherwise none is live. *)
Definition timersOk (s : Game) : Prop :=
  match phase s with
  | Playing =>
      exists g p, g <> p /\
        gameLoopRef s = Some g /\ pipeGenerationRef s = Some p /\
        intervals s = [(g, GameLoop); (p, PipeGeneration)]
  | _ => intervals s = []
  end.

(** ** The rest of the component *)

(** The cleanup returned by the effect of lines 179-188, run when the
    component goes away. *)
Definition unmount (s : Game) : Game :=
  let s := clearRef (gameLoopRef s) s in
  clearRef (pipeGenerationRef s) s.

(** Line 292: whether the start / game-over overlay is rendered. *)
Definition overlayVisible (s : Game) : bool :=
  negb (isGameStarted s) || isGameOver s.

(** Line 314: the heading of the overlay. *)
Definition overlayTitle (s : Game) : String.string :=
  if isGameOver s then "Game Over!"%string else "Flappy Bird"%string.

(** Line 347: the label of the button of the overlay. *)
Definition buttonLabel (s : Game) : String.string :=
  if isGameOver s then "Play Again"%string else "Start Game"%string.

(** Line 317: whether the final score is written on the overlay. *)
Definition showsFinalScore (s : Game) : bool := isGameOver s.

(** ** Auxiliary notions for the invariants *)

(** [Math.random()] returns a number in [0, 1): the events whose draw is in
    that range. *)
Definition drawInRange (ev : Event) : bool :=
  match ev with
  | Activate => true
  | TimerFires _ rnd => negb (Qcltb rnd 0) && Qcltb rnd 1
  end.

(** States reached with draws in range only. *)
Definition reachableInRange (d : Dimensions) (s : Game) : Prop :=
  exists evs, forallb drawInRange evs = true /\ s = run d evs (initialGame d).

(** The number of pipes whose flag is set. *)
Definition flagged (ps : list Pipe) : nat := length (filter passed ps).

(** A playfield too low for the clearance arithmetic of the spawn. *)
Definition lowDims : Dimensions := mkDimensions (Q2Qc 400) (Q2Qc 300).

(** Unfolds the canonical rationals of a goal to plain rationals. *)
Ltac to_Q :=
  unfold Qcle, Qclt, Qcminus, Qcplus, Qcopp, Qcmult, Q2Qc in *;
  cbn [this] in *;
  rewrite ?Qred_correct in *.

(** * Properties *)

(** ** Comparisons *)

Lemma Qcltb_lt (a b : Qc) : Qcltb a b = true <-> a < b.
Proof.
  unfold Qcltb, Qclt, Qccompare. rewrite Qlt_alt.
  destruct (this a ?= this b)%Q; intuition congruence.
Qed.

Lemma Qcltb_ge (a b : Qc) : Qcltb a b = false <-> b <= a.
Proof.
  rewrite <- not_true_iff_false, Qcltb_lt.
  split; [apply Qcnot_lt_le | apply Qcle_not_lt].
Qed.

Lemma hitsBoundary_spec (d : Dimensions) (y : Qc) :
  hitsBoundary d y = true <-> y > height d - Q2Qc 100 \/ y < Q2Qc 50.
Proof.
  unfold hitsBoundary. now rewrite orb_true_iff, !Qcltb_lt.
Qed.

Lemma collides_spec (d : Dimensions) (y : Qc) (p : Pipe) :
  collides d y p = true <->
  birdX + birdRadius > x p /\
  birdX - birdRadius < x p + PIPE_WIDTH /\
  (y - birdRadius < topHeight p \/
   y + birdRadius > height d - bottomHeight p).
Proof.
  unfold collides.
  rewrite !andb_true_iff, orb_true_iff, !Qcltb_lt. tauto.
Qed.

Lemma onScreen_spec (p : Pipe) : onScreen p = true <-> x p > - PIPE_WIDTH.
Proof. unfold onScreen. apply Qcltb_lt. Qed.

(** ** Phases and frame conditions of the handlers *)

Lemma phase_Playing (s : Game) :
  phase s = Playing <-> isGameStarted s = true /\ isGameOver s = false.
Proof.
  unfold phase. destruct (isGameOver s), (isGameStarted s); intuition congruence.
Qed.

Lemma phase_Ended (s : Game) : phase s = Ended <-> isGameOver s = true.
Proof.
  unfold phase. destruct (isGameOver s), (isGameStarted s); intuition congruence.
Qed.

Lemma endGame_fields (s : Game) :
  isGameOver (endGame s) = true /\
  isGameStarted (endGame s) = isGameStarted s /\
  score (endGame s) = score s /\
  pipes (endGame s) = pipes s /\
  birdY (endGame s) = birdY s /\
  birdVelocity (endGame s) = birdVelocity s /\
  birdRotation (endGame s) = birdRotation s /\
  gameLoopRef (endGame s) = gameLoopRef s /\
  pipeGenerationRef (endGame s) = pipeGenerationRef s /\
  nextTimer (endGame s) = nextTimer s.
Proof.
  unfold endGame, clearRef.
  destruct s as [st ov sc ps y v r [g|] [p|] iv nt]; cbn; repeat split.
Qed.

Lemma integrate_fields (s : Game) :
  birdY (integrate s) = birdY s + (birdVelocity s + GRAVITY) /\
  birdVelocity (integrate s) = birdVelocity s + GRAVITY /\
  isGameStarted (integrate s) = isGameStarted s /\
  isGameOver (integrate s) = isGameOver s /\
  score (integrate s) = score s /\
  pipes (integrate s) = pipes s /\
  intervals (integrate s) = intervals s.
Proof. repeat split. Qed.

Lemma checkBoundary_bird (d : Dimensions) (s : Game) :
  birdY (checkBoundary d s) = birdY s /\
  birdVelocity (checkBoundary d s) = birdVelocity s /\
  birdRotation (checkBoundary d s) = birdRotation s /\
  pipes (checkBoundary d s) = pipes s /\
  score (checkBoundary d s) = score s.
Proof.
  unfold checkBoundary. destruct (hitsBoundary d (birdY s)).
  - pose proof (endGame_fields s). intuition.
  - repeat split.
Qed.

Lemma checkBoundary_over (d : Dimensions) (s : Game) :
  isGameOver (checkBoundary d s) = isGameOver s || hitsBoundary d (birdY s).
Proof.
  unfold checkBoundary. destruct (hitsBoundary d (birdY s)).
  - destruct (endGame_fields s) as [-> _]. now rewrite orb_true_r.
  - now rewrite orb_false_r.
Qed.

Lemma handleTap_ended (d : Dimensions) (s : Game) :
  phase s = Ended -> handleTap d s = resetGame d s.
Proof.
  intros H. apply phase_Ended in H. unfold handleTap. rewrite H.
  now rewrite andb_false_r.
Qed.

Lemma handleTap_idle (d : Dimensions) (s : Game) :
  phase s = Idle ->
  handleTap d s
  = setPipeGenerationRef (Some (Pos.succ (nextTimer s)))
      (snd (setInterval PipeGeneration
         (setGameLoopRef (Some (nextTimer s))
            (snd (setInterval GameLoop (setIsGameStarted true s)))))).
Proof.
  unfold phase, handleTap, startGame.
  destruct (isGameOver s), (isGameStarted s); try discriminate.
  reflexivity.
Qed.

(** ** Ending the game clears the timers *)

(** [endGame] leaves no live interval, whatever the phase it is called in. *)
Lemma endGame_timersOk (s : Game) :
  timersOk s ->
  timersOk (endGame s) /\ intervals (endGame s) = [] /\ phase (endGame s) = Ended.
Proof.
  unfold timersOk, phase, endGame, clearRef.
  destruct s as [st ov sc ps y v r gl pg iv nt]; cbn.
  destruct ov; [|destruct st].
  - intros ->. destruct gl, pg; cbn; auto.
  - intros (g & p & Hne & -> & -> & ->). cbn.
    rewrite Pos.eqb_refl. cbn.
    destruct (Pos.eqb p g) eqn:E.
    + apply Pos.eqb_eq in E. congruence.
    + cbn. rewrite Pos.eqb_refl. cbn. auto.
  - intros ->. destruct gl, pg; cbn; auto.
Qed.

Lemma incrementScore_timersOk (s : Game) :
  timersOk s -> timersOk (incrementScore s).
Proof. unfold timersOk, phase. cbn. auto. Qed.

(** ** The loop over the pipes *)

(** No flag is raised between a list of pipes and itself. *)
Lemma newlyPassed_same (ps : list Pipe) :
  filter newlyPassed (combine ps ps) = [].
Proof.
  induction ps as [|p rest IH]; cbn; [reflexivity|].
  unfold newlyPassed at 1. cbn. rewrite andb_negb_l. exact IH.
Qed.

Section ScanLoop.

Variable d : Dimensions.
Variable y : Qc.

(** The loop over the pipes only calls [endGame] and [incrementScore]. *)
Lemma scanPipes_frame (ps : list Pipe) :
  forall s,
    let s' := snd (scanPipes d y ps s) in
    isGameStarted s' = isGameStarted s /\
    pipes s' = pipes s /\
    birdY s' = birdY s /\
    birdVelocity s' = birdVelocity s /\
    birdRotation s' = birdRotation s /\
    gameLoopRef s' = gameLoopRef s /\
    pipeGenerationRef s' = pipeGenerationRef s /\
    nextTimer s' = nextTimer s.
Proof.
  induction ps as [|p rest IH]; intros s; cbn.
  - repeat split.
  - destruct (collides d y p).
    + cbn. pose proof (endGame_fields s) as H. intuition congruence.
    + destruct (passes p).
      * specialize (IH (incrementScore s)).
        destruct (scanPipes d y rest (incrementScore s)) as [rest' s'].
        cbn in *. exact IH.
      * specialize (IH s).
        destruct (scanPipes d y rest s) as [rest' s']. cbn in *. exact IH.
Qed.

Lemma scanPipes_over (ps : list Pipe) :
  forall s,
    isGameOver (snd (scanPipes d y ps s))
    = isGameOver s || existsb (collides d y) ps.
Proof.
  induction ps as [|p rest IH]; intros s; cbn.
  - now rewrite orb_false_r.
  - destruct (collides d y p); cbn.
    + destruct (endGame_fields s) as [H _]. rewrite H. now rewrite orb_true_r.
    + destruct (passes p).
      * specialize (IH (incrementScore s)).
        destruct (scanPipes d y rest (incrementScore s)). exact IH.
      * specialize (IH s). destruct (scanPipes d y rest s). exact IH.
Qed.

Lemma scanPipes_timersOk (ps : list Pipe) :
  forall s, timersOk s -> timersOk (snd (scanPipes d y ps s)).
Proof.
  induction ps as [|p rest IH]; intros s H; cbn; auto.
  destruct (collides d y p); cbn.
  - apply endGame_timersOk, H.
  - destruct (passes p).
    + specialize (IH _ (incrementScore_timersOk s H)).
      destruct (scanPipes d y rest (incrementScore s)). exact IH.
    + specialize (IH _ H). destruct (scanPipes d y rest s). exact IH.
Qed.

Lemma scanPipes_onScreen_geometry (ps : list Pipe) :
  forall s,
    map geometry (filter onScreen (fst (scanPipes d y ps s)))
    = map geometry (filter onScreen ps).
Proof.
  induction ps as [|p rest IH]; intros s; cbn; [reflexivity|].
  destruct (collides d y p); cbn; [reflexivity|].
  destruct (passes p).
  - specialize (IH (incrementScore s)).
    destruct (scanPipes d y rest (incrementScore s)) as [rest' s'].
    cbn in *. change (onScreen (markPassed p)) with (onScreen p).
    destruct (onScreen p); cbn; now rewrite IH.
  - specialize (IH s). destruct (scanPipes d y rest s) as [rest' s'].
    cbn in *. destruct (onScreen p); cbn; now rewrite IH.
Qed.

(** What the loop does to the i-th pipe, and what it adds to the score. *)
Lemma scanPipes_spec (ps : list Pipe) :
  forall s,
    let scanned := fst (scanPipes d y ps s) in
    let s' := snd (scanPipes d y ps s) in
    length scanned = length ps /\
    (forall i p, nth_error ps i = Some p ->
       exists p', nth_error scanned i = Some p' /\
         geometry p' = geometry p /\
         passed p' = passed p
                     || (Qcltb (x p + PIPE_WIDTH) birdX
                         && negb (existsb (collides d y) (firstn (S i) ps)))) /\
    score s' = (score s
                + Z.of_nat (length (filter newlyPassed (combine ps scanned))))%Z.
Proof.
  induction ps as [|p rest IH]; intros s; cbn zeta.
  - cbn. repeat split; try lia. intros [|i] p; discriminate.
  - cbn [scanPipes].
    destruct (collides d y p) eqn:Hc.
    + cbn [fst snd]. split; [reflexivity|]. split.
      * intros i q Hq. exists q. split; [exact Hq|]. split; [reflexivity|].
        cbn [firstn existsb]. rewrite Hc. cbn.
        now rewrite andb_false_r, orb_false_r.
      * rewrite newlyPassed_same. cbn.
        destruct (endGame_fields s) as (_ & _ & -> & _). lia.
    + destruct (passes p) eqn:Hp.
      * specialize (IH (incrementScore s)). cbn zeta in IH.
        destruct (scanPipes d y rest (incrementScore s)) as [rest' s'].
        cbn [fst snd] in *. destruct IH as (Hl & Hn & Hs).
        unfold passes in Hp. apply andb_true_iff in Hp.
        destruct Hp as [Hf Hx]. apply negb_true_iff in Hf.
        split; [cbn; now rewrite Hl|]. split.
        -- intros [|i] q Hq; cbn in Hq.
           ++ injection Hq as <-. exists (markPassed p).
              split; [reflexivity|]. split; [reflexivity|].
              cbn. now rewrite Hf, Hx, Hc.
           ++ destruct (Hn i q Hq) as (q' & Hq' & Hg & Hpq).
              exists q'. split; [exact Hq'|]. split; [exact Hg|].
              rewrite Hpq. cbn [firstn existsb]. now rewrite Hc.
        -- cbn [combine filter]. unfold newlyPassed at 1. cbn [fst snd].
           rewrite Hf. cbn [markPassed passed negb andb length].
           rewrite Hs. cbn [incrementScore setScore score]. lia.
      * specialize (IH s). cbn zeta in IH.
        destruct (scanPipes d y rest s) as [rest' s'].
        cbn [fst snd] in *. destruct IH as (Hl & Hn & Hs).
        split; [cbn; now rewrite Hl|]. split.
        -- intros [|i] q Hq; cbn in Hq.
           ++ injection Hq as <-. exists p.
              split; [reflexivity|]. split; [reflexivity|].
              cbn. rewrite Hc. cbn. unfold passes in Hp.
              destruct (passed p); cbn in *; [reflexivity|].
              now rewrite Hp.
           ++ destruct (Hn i q Hq) as (q' & Hq' & Hg & Hpq).
              exists q'. split; [exact Hq'|]. split; [exact Hg|].
              rewrite Hpq. cbn [firstn existsb]. now rewrite Hc.
        -- cbn [combine filter]. unfold newlyPassed at 1. cbn [fst snd].
           rewrite andb_negb_l. exact Hs.
Qed.


End ScanLoop.

(** ** One run of the game loop *)

Lemma updatePipes_bird (d : Dimensions) (s : Game) :
  birdY (updatePipes d s) = birdY s /\
  birdVelocity (updatePipes d s) = birdVelocity s /\
  birdRotation (updatePipes d s) = birdRotation s.
Proof.
  unfold updatePipes.
  pose proof (scanPipes_frame d (birdY s) (map advance (pipes s)) s) as H.
  destruct (scanPipes d (birdY s) (map advance (pipes s)) s) as [sc s'].
  cbn in *. intuition.
Qed.

Lemma updatePipes_over (d : Dimensions) (s : Game) :
  isGameOver (updatePipes d s)
  = isGameOver s || existsb (collides d (birdY s)) (map advance (pipes s)).
Proof.
  unfold updatePipes.
  pose proof (scanPipes_over d (birdY s) (map advance (pipes s)) s) as H.
  destruct (scanPipes d (birdY s) (map advance (pipes s)) s) as [sc s'].
  exact H.
Qed.

Lemma gameLoop_birdY (d : Dimensions) (s : Game) :
  birdY (gameLoop d s) = birdY (integrate s).
Proof.
  unfold gameLoop.
  destruct (updatePipes_bird d (checkBoundary d (integrate s))) as (-> & _).
  now destruct (checkBoundary_bird d (integrate s)) as (-> & _).
Qed.

(** The game-over flag after a tick: set before, or the bird left the
    playfield, or some moved pipe is hit. *)
Lemma gameLoop_over (d : Dimensions) (s : Game) :
  isGameOver (gameLoop d s)
  = isGameOver s
    || hitsBoundary d (birdY (gameLoop d s))
    || existsb (collides d (birdY (gameLoop d s))) (map advance (pipes s)).
Proof.
  rewrite gameLoop_birdY. unfold gameLoop.
  rewrite updatePipes_over, checkBoundary_over.
  destruct (checkBoundary_bird d (integrate s)) as (-> & _ & _ & -> & _).
  reflexivity.
Qed.

Lemma gameLoop_pipes_geometry (d : Dimensions) (s : Game) :
  map geometry (pipes (gameLoop d s))
  = map geometry (filter onScreen (map advance (pipes s))).
Proof.
  unfold gameLoop, updatePipes.
  destruct (checkBoundary_bird d (integrate s)) as (_ & _ & _ & -> & _).
  pose proof (scanPipes_onScreen_geometry d
                (birdY (checkBoundary d (integrate s)))
                (map advance (pipes (integrate s)))
                (checkBoundary d (integrate s))) as H.
  destruct (scanPipes d (birdY (checkBoundary d (integrate s)))
              (map advance (pipes (integrate s)))
              (checkBoundary d (integrate s))) as [scanned s'].
  exact H.
Qed.

Lemma gameLoop_score_mono (d : Dimensions) (s : Game) :
  (score s <= score (gameLoop d s))%Z.
Proof.
  unfold gameLoop, updatePipes.
  set (s2 := checkBoundary d (integrate s)).
  assert (H2 : score s2 = score s)
    by (destruct (checkBoundary_bird d (integrate s)) as (_ & _ & _ & _ & H);
        exact H).
  destruct (scanPipes_spec d (birdY s2) (map advance (pipes s2)) s2)
    as (_ & _ & Hs).
  destruct (scanPipes d (birdY s2) (map advance (pipes s2)) s2) as [sc s'].
  cbn in *. lia.
Qed.

Lemma gameLoop_timersOk (d : Dimensions) (s : Game) :
  timersOk s -> timersOk (gameLoop d s).
Proof.
  intros H. unfold gameLoop, updatePipes.
  assert (H1 : timersOk (checkBoundary d (integrate s))).
  { unfold checkBoundary.
    destruct (hitsBoundary d (birdY (integrate s))).
    - apply endGame_timersOk. exact H.
    - exact H. }
  pose proof (scanPipes_timersOk d (birdY (checkBoundary d (integrate s)))
                (map advance (pipes (checkBoundary d (integrate s)))) _ H1)
    as H2.
  destruct (scanPipes d (birdY (checkBoundary d (integrate s)))
              (map advance (pipes (checkBoundary d (integrate s))))
              (checkBoundary d (integrate s))) as [scanned s'].
  exact H2.
Qed.

(** ** The timer discipline along a run *)

Lemma handleTap_timersOk (d : Dimensions) (s : Game) :
  timersOk s -> timersOk (handleTap d s).
Proof.
  unfold timersOk, handleTap, startGame, phase.
  destruct s as [st ov sc ps y v r gl pg iv nt]; cbn.
  destruct ov, st; cbn; auto.
  intros ->. cbn. exists nt, (Pos.succ nt). repeat split.
  apply Pos.succ_discr.
Qed.

(** With no live interval, a timer event finds no callback. *)
Lemma step_timer_idle (d : Dimensions) (id : TimerId) (rnd : Qc) (s : Game) :
  intervals s = [] -> step d (TimerFires id rnd) s = s.
Proof. intros H. unfold step, lookupInterval. now rewrite H. Qed.

Lemma step_timersOk (d : Dimensions) (ev : Event) (s : Game) :
  timersOk s -> timersOk (step d ev s).
Proof.
  intros H. destruct ev as [|id rnd]; cbn.
  - apply handleTap_timersOk, H.
  - destruct (lookupInterval id s) as [[|]|]; auto.
    apply gameLoop_timersOk, H.
Qed.

Lemma run_timersOk (d : Dimensions) (evs : list Event) :
  forall s, timersOk s -> timersOk (run d evs s).
Proof.
  induction evs as [|ev evs IH]; intros s H; cbn; auto.
  apply IH, step_timersOk, H.
Qed.

Lemma reachable_timersOk (d : Dimensions) (s : Game) :
  reachable d s -> timersOk s.
Proof.
  intros [evs ->]. apply run_timersOk. reflexivity.
Qed.

Lemma reachable_step (d : Dimensions) (ev : Event) (s : Game) :
  reachable d s -> reachable d (step d ev s).
Proof.
  intros [evs ->]. exists (evs ++ [ev]).
  unfold run. now rewrite fold_left_app.
Qed.

(** Once no interval is live, timer events leave the state as it is. *)
Lemma run_timers_idle (d : Dimensions) (evs : list Event) (s : Game) :
  intervals s = [] ->
  forallb isTimerEvent evs = true ->
  run d evs s = s.
Proof.
  intros Hi. induction evs as [|ev evs IH]; [reflexivity|].
  destruct ev as [|id rnd]; cbn [forallb isTimerEvent andb]; [discriminate|].
  intros H.
  change (run d evs (step d (TimerFires id rnd) s) = s).
  rewrite step_timer_idle by exact Hi. apply IH, H.
Qed.

(** ** The sample games are reachable *)

Lemma sampleEnded_reachable : reachable sampleDims sampleEnded.
Proof.
  exists sampleEndedEvents. reflexivity.
Qed.

Lemma sampleAtPipe_reachable : reachable sampleDims sampleAtPipe.
Proof. exists sampleAtPipeEvents. reflexivity. Qed.

Lemma sampleScoring_reachable : reachable sampleDims sampleScoring.
Proof. exists sampleScoringEvents. reflexivity. Qed.

Lemma sampleFalling_reachable : reachable sampleDims sampleFalling.
Proof. exists sampleFallingEvents. reflexivity. Qed.

(** * The specification, claim by claim *)

(** ** Physics integration *)

(** C7: one run of the game loop adds GRAVITY to the velocity, whatever the
    state, and then adds the new velocity to the position; no clamp is
    applied.  From zero velocity the velocity becomes 0.6 and the position
    grows by 0.6. *)
Theorem gameLoop_integrates (d : Dimensions) (s : Game) :
  birdVelocity (gameLoop d s) = birdVelocity s + GRAVITY /\
  birdY (gameLoop d s) = birdY s + (birdVelocity s + GRAVITY) /\
  (birdVelocity s = 0 ->
   birdVelocity (gameLoop d s) = Q2Qc (6 # 10) /\
   birdY (gameLoop d s) = birdY s + Q2Qc (6 # 10)).
Proof.
  unfold gameLoop.
  destruct (updatePipes_bird d (checkBoundary d (integrate s))) as (Hy & Hv & _).
  destruct (checkBoundary_bird d (integrate s)) as (Hy' & Hv' & _).
  rewrite Hy, Hv, Hy', Hv'. cbn.
  repeat split; rewrite H, Qcplus_0_l; reflexivity.
Qed.

Lemma gameLoop_integrates_witness :
  birdVelocity samplePlaying = 0 /\
  birdVelocity (gameLoop sampleDims samplePlaying) = Q2Qc (6 # 10) /\
  birdY (gameLoop sampleDims samplePlaying)
  = Q2Qc 800 / Q2Qc 2 + Q2Qc (6 # 10).
Proof.
  split; [reflexivity|].
  apply (gameLoop_integrates sampleDims samplePlaying). reflexivity.
Defined.

(** ** The activate input while playing *)

(** C8: while playing, the activate input sets the velocity to JUMP_HEIGHT,
    which is -12, whatever the velocity was, and the phase stays Playing. *)
Theorem handleTap_playing_jumps (d : Dimensions) (s : Game) :
  phase s = Playing ->
  JUMP_HEIGHT = - Q2Qc 12 /\
  birdVelocity (handleTap d s) = JUMP_HEIGHT /\
  (forall v, birdVelocity (handleTap d (setBirdVelocity v s)) = JUMP_HEIGHT) /\
  phase (handleTap d s) = Playing.
Proof.
  intros H. apply phase_Playing in H. destruct H as [Hs Ho].
  unfold handleTap, phase. cbn. rewrite Hs, Ho. cbn. rewrite Hs, Ho.
  repeat split.
Qed.

Lemma handleTap_playing_jumps_witness :
  phase (setBirdVelocity (Q2Qc 5) samplePlaying) = Playing /\
  birdVelocity (handleTap sampleDims (setBirdVelocity (Q2Qc 5) samplePlaying))
  = - Q2Qc 12.
Proof.
  split; [reflexivity|].
  apply (handleTap_playing_jumps sampleDims
           (setBirdVelocity (Q2Qc 5) samplePlaying)). reflexivity.
Defined.

(** C10: while playing, the activate input changes the velocity and the
    rotation only: position, score, obstacles and phase are untouched, and
    so are the flags, the refs and the timers. *)
Theorem handleTap_playing_frame (d : Dimensions) (s : Game) :
  phase s = Playing ->
  let s' := handleTap d s in
  birdY s' = birdY s /\
  score s' = score s /\
  pipes s' = pipes s /\
  phase s' = phase s /\
  isGameStarted s' = isGameStarted s /\
  isGameOver s' = isGameOver s /\
  gameLoopRef s' = gameLoopRef s /\
  pipeGenerationRef s' = pipeGenerationRef s /\
  intervals s' = intervals s /\
  nextTimer s' = nextTimer s.
Proof.
  intros H. apply phase_Playing in H. destruct H as [Hs Ho].
  unfold handleTap, phase. rewrite Hs, Ho. cbn. rewrite Hs, Ho.
  repeat split.
Qed.

Lemma handleTap_playing_frame_witness :
  let s := generatePipe sampleDims (Q2Qc (1 # 2)) samplePlaying in
  let s' := handleTap sampleDims s in
  phase s = Playing /\ birdY s' = birdY s /\ score s' = score s /\
  pipes s' = pipes s /\ phase s' = phase s.
Proof.
  cbv zeta.
  pose proof (handleTap_playing_frame sampleDims
                (generatePipe sampleDims (Q2Qc (1 # 2)) samplePlaying)
                eq_refl) as H.
  cbv zeta in H. intuition.
Defined.

(** ** The activate input after the game has ended *)

(** C9: an activate input in the Ended phase resets the game to the idle
    state of a fresh mount: both flags off, score 0, no obstacle, the bird at
    half the playfield height with velocity 0 and rotation 0.  It starts no
    interval (the timer table and the refs are as before, and in a reachable
    state no interval is live afterwards), so timer events change nothing;
    only a further activate input enters Playing and starts the two
    intervals. *)
Theorem handleTap_ended_resets_to_idle (d : Dimensions) (s : Game) :
  phase s = Ended ->
  let s' := handleTap d s in
  phase s' = Idle /\
  observable s' = observable (initialGame d) /\
  observable s' = (false, false, 0%Z, [], height d / Q2Qc 2, 0, Value 0) /\
  intervals s' = intervals s /\
  nextTimer s' = nextTimer s /\
  gameLoopRef s' = gameLoopRef s /\
  pipeGenerationRef s' = pipeGenerationRef s /\
  (reachable d s ->
   intervals s' = [] /\
   forall id rnd, step d (TimerFires id rnd) s' = s') /\
  phase (handleTap d s') = Playing /\
  intervals (handleTap d s')
  = intervals s' ++ [(nextTimer s', GameLoop);
                     (Pos.succ (nextTimer s'), PipeGeneration)].
Proof.
  intros H. cbv zeta. rewrite (handleTap_ended d s H).
  assert (Hi : phase (resetGame d s) = Idle) by reflexivity.
  rewrite (handleTap_idle d _ Hi).
  repeat split.
  - apply reachable_timersOk in H0. unfold timersOk in H0.
    rewrite H in H0. exact H0.
  - intros id rnd. apply step_timer_idle. cbn.
    apply reachable_timersOk in H0. unfold timersOk in H0.
    rewrite H in H0. exact H0.
  - cbn. now rewrite <- app_assoc.
Qed.

Lemma handleTap_ended_resets_to_idle_witness :
  phase sampleEnded = Ended /\
  phase (handleTap sampleDims sampleEnded) = Idle /\
  intervals (handleTap sampleDims sampleEnded) = [] /\
  phase (handleTap sampleDims (handleTap sampleDims sampleEnded)) = Playing.
Proof.
  assert (H : phase sampleEnded = Ended) by (vm_compute; reflexivity).
  pose proof (handleTap_ended_resets_to_idle sampleDims sampleEnded H) as T.
  cbv zeta in T.
  destruct T as (T1 & _ & _ & _ & _ & _ & _ & T2 & T3 & _).
  destruct (T2 sampleEnded_reachable) as [T4 _].
  repeat split; assumption.
Defined.

(** C2, as the code has it: an activate input in the Ended phase leads to
    Idle, not to Playing.  It clears the obstacles, puts the bird back at
    half the playfield height with velocity 0 and rotation 0, sets the score
    to 0 and starts no interval.  The next activate input enters Playing
    from that reset state and starts both intervals. *)
Theorem handleTap_ended_then_start (d : Dimensions) (s : Game) :
  phase s = Ended ->
  reachable d s ->
  let s1 := handleTap d s in
  let s2 := handleTap d s1 in
  (phase s1 = Idle /\
   pipes s1 = [] /\ score s1 = 0%Z /\
   birdY s1 = height d / Q2Qc 2 /\ birdVelocity s1 = 0 /\
   birdRotation s1 = Value 0 /\
   intervals s1 = []) /\
  (phase s2 = Playing /\
   pipes s2 = [] /\ score s2 = 0%Z /\
   birdY s2 = height d / Q2Qc 2 /\ birdVelocity s2 = 0 /\
   birdRotation s2 = Value 0 /\
   exists g p,
     gameLoopRef s2 = Some g /\ pipeGenerationRef s2 = Some p /\
     intervals s2 = [(g, GameLoop); (p, PipeGeneration)]).
Proof.
  intros H R. cbv zeta. rewrite (handleTap_ended d s H).
  assert (Hi : phase (resetGame d s) = Idle) by reflexivity.
  rewrite (handleTap_idle d _ Hi).
  apply reachable_timersOk in R. unfold timersOk in R. rewrite H in R.
  split.
  - repeat split. exact R.
  - repeat split.
    exists (nextTimer s), (Pos.succ (nextTimer s)). cbn. rewrite R.
    repeat split.
Qed.

Lemma handleTap_ended_then_start_witness :
  phase sampleEnded = Ended /\
  phase (handleTap sampleDims sampleEnded) = Idle /\
  phase (handleTap sampleDims (handleTap sampleDims sampleEnded)) = Playing.
Proof.
  assert (H : phase sampleEnded = Ended) by (vm_compute; reflexivity).
  pose proof (handleTap_ended_then_start sampleDims sampleEnded H
                sampleEnded_reachable) as T.
  cbv zeta in T. destruct T as ((T1 & _) & (T2 & _)).
  repeat split; assumption.
Defined.

(** C2 as stated fails: after an activate input in the Ended phase the game
    is not Playing and no interval is live. *)
Lemma handleTap_ended_not_playing :
  reachable sampleDims sampleEnded /\
  phase sampleEnded = Ended /\
  phase (handleTap sampleDims sampleEnded) <> Playing /\
  intervals (handleTap sampleDims sampleEnded) = [].
Proof.
  split; [exact sampleEnded_reachable|].
  vm_compute. repeat split. discriminate.
Qed.

(** ** Spawning *)

(** C5: on a playfield of height H >= PIPE_GAP + 200, and with the random
    draw in [0, 1), the spawn callback appends one obstacle at the end of the
    collection; its top height lies in [100, H - PIPE_GAP - 100], its bottom
    height is H - top - PIPE_GAP and is not negative, it starts at the right
    edge (the playfield width), and its passed flag is false. *)
Theorem generatePipe_spawns (d : Dimensions) (rnd : Qc) (s : Game) :
  PIPE_GAP + Q2Qc 200 <= height d ->
  0 <= rnd -> rnd < 1 ->
  exists p,
    pipes (generatePipe d rnd s) = pipes s ++ [p] /\
    Q2Qc 100 <= topHeight p /\
    topHeight p <= height d - PIPE_GAP - Q2Qc 100 /\
    bottomHeight p = height d - topHeight p - PIPE_GAP /\
    0 <= bottomHeight p /\
    x p = width d /\
    passed p = false.
Proof.
  intros HH H0 H1.
  exists (newPipe d rnd). cbn.
  unfold PIPE_GAP in *.
  repeat split; to_Q; nra.
Qed.

Lemma generatePipe_spawns_witness :
  exists p,
    pipes (generatePipe sampleDims (Q2Qc (1 # 2)) samplePlaying) = [p] /\
    Q2Qc 100 <= topHeight p /\
    topHeight p <= Q2Qc 800 - PIPE_GAP - Q2Qc 100 /\
    bottomHeight p = Q2Qc 800 - topHeight p - PIPE_GAP /\
    0 <= bottomHeight p /\
    x p = Q2Qc 400 /\ passed p = false.
Proof.
  apply (generatePipe_spawns sampleDims (Q2Qc (1 # 2)) samplePlaying);
    vm_compute; congruence.
Defined.

(** ** Obstacle motion and pruning *)

(** C4: a tick moves every obstacle left by exactly PIPE_SPEED and then
    keeps, in their order, the moved obstacles whose position is greater
    than -PIPE_WIDTH.  So no obstacle left of -PIPE_WIDTH remains, every
    remaining obstacle is a moved one, and every moved obstacle right of
    -PIPE_WIDTH remains.  A spawn appends to the collection and leaves the
    obstacles already there as they are, in their order. *)
Theorem gameLoop_moves_and_prunes (d : Dimensions) (s : Game) :
  (forall p, geometry (advance p)
             = (x p - PIPE_SPEED, topHeight p, bottomHeight p)) /\
  map geometry (pipes (gameLoop d s))
  = map geometry (filter onScreen (map advance (pipes s))) /\
  (forall p, onScreen p = true <-> x p > - PIPE_WIDTH) /\
  (forall q, In q (pipes (gameLoop d s)) ->
     ~ x q < - PIPE_WIDTH /\
     exists p, In p (pipes s) /\ geometry q = geometry (advance p)) /\
  (forall p, In p (pipes s) -> x p - PIPE_SPEED > - PIPE_WIDTH ->
     exists q, In q (pipes (gameLoop d s)) /\
               geometry q = geometry (advance p)) /\
  (forall rnd, exists p, pipes (generatePipe d rnd s) = pipes s ++ [p]).
Proof.
  pose proof (gameLoop_pipes_geometry d s) as G.
  split; [reflexivity|]. split; [exact G|]. split; [exact onScreen_spec|].
  split; [|split].
  - intros q Hq.
    apply (in_map geometry) in Hq. rewrite G in Hq.
    apply in_map_iff in Hq. destruct Hq as (m & Hm & Hin).
    apply filter_In in Hin. destruct Hin as [Hin Hon].
    apply in_map_iff in Hin. destruct Hin as (p & <- & Hp).
    split.
    + apply onScreen_spec in Hon.
      assert (Hx : x q = x (advance p)) by (unfold geometry in Hm; congruence).
      rewrite Hx. intros Hlt. exact (Qclt_not_le _ _ Hon (Qclt_le_weak _ _ Hlt)).
    + exists p. split; [exact Hp | now symmetry].
  - intros p Hp Hx.
    assert (Hin : In (geometry (advance p))
                     (map geometry (pipes (gameLoop d s)))).
    { rewrite G. apply in_map, filter_In. split.
      - now apply in_map.
      - apply onScreen_spec. exact Hx. }
    apply in_map_iff in Hin. destruct Hin as (q & Hq & Hin).
    exists q. split; assumption.
  - intros rnd. exists (newPipe d rnd). reflexivity.
Qed.

Lemma gameLoop_moves_and_prunes_witness :
  exists q, In q (pipes (gameLoop sampleDims sampleAtPipe)) /\
    geometry q = (Q2Qc 20 - PIPE_SPEED, Q2Qc 175, Q2Qc 425).
Proof.
  destruct (gameLoop_moves_and_prunes sampleDims sampleAtPipe)
    as (_ & _ & _ & _ & H & _).
  apply (H (mkPipe (Q2Qc 20) (Q2Qc 175) (Q2Qc 425) false)).
  - vm_compute. left.
    f_equal; apply Qc_is_canon; reflexivity.
  - vm_compute. reflexivity.
Defined.

(** ** Termination conditions *)

(** C3: a tick of a playing game ends it exactly when the bird, at its new
    position y, is beyond the ground line (y > height - 100) or above the
    ceiling margin (y < 50), or when some obstacle, at its new position px,
    overlaps the bird horizontally (100 + 20 > px and 100 - 20 < px + 80)
    while the bird reaches out of the gap (y - 20 < topHeight or
    y + 20 > height - bottomHeight). *)
Theorem gameLoop_ends_iff (d : Dimensions) (s : Game) :
  phase s = Playing ->
  let y := birdY (gameLoop d s) in
  birdX = Q2Qc 100 /\ birdRadius = Q2Qc 20 /\
  y = birdY s + (birdVelocity s + GRAVITY) /\
  (phase (gameLoop d s) = Ended <->
   (y > height d - Q2Qc 100 \/ y < Q2Qc 50) \/
   exists p, In p (pipes s) /\
     let px := x p - PIPE_SPEED in
     birdX + birdRadius > px /\
     birdX - birdRadius < px + PIPE_WIDTH /\
     (y - birdRadius < topHeight p \/
      y + birdRadius > height d - bottomHeight p)).
Proof.
  intros H. apply phase_Playing in H. destruct H as [_ Ho].
  cbv zeta. repeat split; try apply gameLoop_birdY.
  - rewrite phase_Ended, gameLoop_over, Ho. cbn [orb].
    rewrite orb_true_iff, hitsBoundary_spec, existsb_exists.
    intros [Hb | (q & Hq & Hc)]; [left; exact Hb | right].
    apply in_map_iff in Hq. destruct Hq as (p & <- & Hp).
    exists p. split; [exact Hp|]. apply collides_spec in Hc. exact Hc.
  - rewrite phase_Ended, gameLoop_over, Ho. cbn [orb].
    rewrite orb_true_iff, hitsBoundary_spec, existsb_exists.
    intros [Hb | (p & Hp & Hc)]; [left; exact Hb | right].
    exists (advance p). split; [now apply in_map|].
    apply collides_spec. exact Hc.
Qed.

Lemma gameLoop_ends_iff_witness :
  phase sampleAtPipe = Playing /\
  (phase (gameLoop sampleDims sampleAtPipe) = Ended <->
   (let y := birdY (gameLoop sampleDims sampleAtPipe) in
    (y > height sampleDims - Q2Qc 100 \/ y < Q2Qc 50) \/
    exists p, In p (pipes sampleAtPipe) /\
      let px := x p - PIPE_SPEED in
      birdX + birdRadius > px /\
      birdX - birdRadius < px + PIPE_WIDTH /\
      (y - birdRadius < topHeight p \/
       y + birdRadius > height sampleDims - bottomHeight p))).
Proof.
  assert (H : phase sampleAtPipe = Playing) by (vm_compute; reflexivity).
  split; [exact H|].
  apply (gameLoop_ends_iff sampleDims sampleAtPipe H).
Defined.

(** ** Passage and score *)

(** C6, as the code has it: in a tick the flag of an obstacle goes from
    false to true exactly when it is false, the trailing edge of the moved
    obstacle is left of the bird (x + PIPE_WIDTH < 100), and no obstacle up
    to and including this one in collection order collides in that tick (a
    collision stops the loop before the passage test).  A flag that is true
    stays true, so it is raised at most once.  The score grows by exactly
    the number of flags raised in the tick.  While playing no event lowers
    the score, and an event other than a tick leaves the obstacles and their
    flags as they are, at most appending spawned ones. *)
Theorem gameLoop_passage (d : Dimensions) (s : Game) :
  let y := birdY (gameLoop d s) in
  let moved := map advance (pipes s) in
  exists scanned,
    pipes (gameLoop d s) = filter onScreen scanned /\
    length scanned = length moved /\
    (forall i p, nth_error moved i = Some p ->
       exists p', nth_error scanned i = Some p' /\
         geometry p' = geometry p /\
         (passed p = true -> passed p' = true) /\
         (passed p = false /\ passed p' = true <->
          passed p = false /\
          x p + PIPE_WIDTH < birdX /\
          existsb (collides d y) (firstn (S i) moved) = false)) /\
    score (gameLoop d s)
    = (score s + Z.of_nat (length (filter newlyPassed (combine moved scanned))))%Z /\
    (forall ev, phase s = Playing ->
       (score s <= score (step d ev s))%Z /\
       (step d ev s = gameLoop d s \/
        exists spawned, pipes (step d ev s) = pipes s ++ spawned)).
Proof.
  cbv zeta.
  set (P := forall ev : Event, phase s = Playing -> _).
  assert (Hev : P).
  { subst P. intros ev Hph. destruct ev as [|id rnd].
    - apply phase_Playing in Hph. destruct Hph as [Hst Hov].
      cbn [step]. unfold handleTap. rewrite Hst, Hov. cbn.
      split; [lia|]. right. exists []. now rewrite app_nil_r.
    - cbn [step]. destruct (lookupInterval id s) as [[|]|].
      + split; [apply gameLoop_score_mono | now left].
      + cbn. split; [lia|]. right. now exists [newPipe d rnd].
      + split; [lia|]. right. exists []. now rewrite app_nil_r. }
  clearbody P.
  rewrite gameLoop_birdY.
  unfold gameLoop, updatePipes.
  set (s2 := checkBoundary d (integrate s)).
  assert (Hy : birdY s2 = birdY (integrate s))
    by (destruct (checkBoundary_bird d (integrate s)) as (H & _); exact H).
  assert (Hp : pipes s2 = pipes s)
    by (destruct (checkBoundary_bird d (integrate s)) as (_ & _ & _ & H & _);
        exact H).
  assert (Hs2 : score s2 = score s)
    by (destruct (checkBoundary_bird d (integrate s)) as (_ & _ & _ & _ & H);
        exact H).
  rewrite Hy, Hp.
  destruct (scanPipes_spec d (birdY (integrate s)) (map advance (pipes s)) s2)
    as (Hl & Hn & Hs).
  destruct (scanPipes d (birdY (integrate s)) (map advance (pipes s)) s2)
    as [scanned s'].
  cbn [fst snd] in *.
  exists scanned. split; [reflexivity|]. split; [exact Hl|]. split; [|split].
  - intros i p Hi. destruct (Hn i p Hi) as (p' & Hi' & Hg & Hpp).
    exists p'. split; [exact Hi'|]. split; [exact Hg|].
    rewrite Hpp. split.
    + intros ->. reflexivity.
    + rewrite <- Qcltb_lt.
      destruct (passed p), (Qcltb (x p + PIPE_WIDTH) birdX),
        (existsb (collides d (birdY (integrate s)))
                 (firstn (S i) (map advance (pipes s))));
        cbn; intuition congruence.
  - cbn. rewrite Hs, Hs2. reflexivity.
  - exact Hev.
Qed.

Lemma gameLoop_passage_witness :
  exists scanned p',
    pipes (gameLoop sampleDims sampleScoring) = filter onScreen scanned /\
    nth_error scanned 0 = Some p' /\
    passed p' = true /\
    score (gameLoop sampleDims sampleScoring) = 1%Z.
Proof.
  destruct (gameLoop_passage sampleDims sampleScoring)
    as (scanned & Hpipes & Hlen & Hn & Hs & _).
  assert (Hm : map advance (pipes sampleScoring)
               = [mkPipe (Q2Qc 18) (Q2Qc 200) (Q2Qc 400) false]).
  { vm_compute. do 2 f_equal; apply Qc_is_canon; reflexivity. }
  assert (Hsc : score sampleScoring = 0%Z) by (vm_compute; reflexivity).
  rewrite Hm in Hlen, Hn, Hs. rewrite Hsc in Hs.
  destruct (Hn 0%nat _ eq_refl) as (p' & Hp' & _ & _ & Hiff).
  exists scanned, p'. split; [exact Hpipes|]. split; [exact Hp'|].
  assert (Hflag : passed p' = true).
  { apply Hiff. split; [reflexivity|]. split; vm_compute; reflexivity. }
  split; [exact Hflag|].
  rewrite Hs.
  destruct scanned as [|q [|q' rest]]; try discriminate Hlen.
  cbn in Hp'. injection Hp' as ->.
  cbn [combine filter]. unfold newlyPassed. cbn [fst snd passed negb andb].
  rewrite Hflag. reflexivity.
Defined.

(** C6 as stated fails: the only obstacle has its flag false and, once
    moved, its trailing edge left of the bird, but the bird hits it in that
    tick; the flag stays false and the score stays as it was. *)
Lemma collision_skips_passage :
  reachable sampleDims sampleAtPipe /\
  phase sampleAtPipe = Playing /\
  length (pipes sampleAtPipe) = 1%nat /\
  (forall p, In p (map advance (pipes sampleAtPipe)) ->
     passed p = false /\ x p + PIPE_WIDTH < birdX) /\
  pipes (gameLoop sampleDims sampleAtPipe) = map advance (pipes sampleAtPipe) /\
  score (gameLoop sampleDims sampleAtPipe) = score sampleAtPipe.
Proof.
  split; [exact sampleAtPipe_reachable|].
  split; [vm_compute; reflexivity|].
  split; [vm_compute; reflexivity|].
  split; [|split; vm_compute; reflexivity].
  intros p Hp.
  assert (Hm : map advance (pipes sampleAtPipe)
               = [mkPipe (Q2Qc 18) (Q2Qc 175) (Q2Qc 425) false]).
  { vm_compute. do 2 f_equal; apply Qc_is_canon; reflexivity. }
  rewrite Hm in Hp. destruct Hp as [<- | []].
  split; vm_compute; reflexivity.
Qed.

(** ** Termination within a tick and afterwards *)










(** * Further properties of the component *)

(** ** Reasoning along a run *)

Lemma gameLoop_started (d : Dimensions) (s : Game) :
  isGameStarted (gameLoop d s) = isGameStarted s /\
  gameLoopRef (gameLoop d s) = gameLoopRef s /\
  pipeGenerationRef (gameLoop d s) = pipeGenerationRef s /\
  nextTimer (gameLoop d s) = nextTimer s.
Proof.
  unfold gameLoop, updatePipes.
  set (s2 := checkBoundary d (integrate s)).
  assert (H2 : isGameStarted s2 = isGameStarted s /\
               gameLoopRef s2 = gameLoopRef s /\
               pipeGenerationRef s2 = pipeGenerationRef s /\
               nextTimer s2 = nextTimer s).
  { subst s2. unfold checkBoundary.
    destruct (hitsBoundary d (birdY (integrate s))); [|repeat split].
    pose proof (endGame_fields (integrate s)) as H. cbn in *. intuition. }
  pose proof (scanPipes_frame d (birdY s2) (map advance (pipes s2)) s2) as H.
  destruct (scanPipes d (birdY s2) (map advance (pipes s2)) s2) as [sc s'].
  cbn in *. intuition congruence.
Qed.

(** In a state that keeps the timer discipline, an event is one of six
    moves. *)
Lemma step_cases (d : Dimensions) (ev : Event) (s : Game) :
  timersOk s ->
  (phase s = Idle /\ ev = Activate) \/
  (phase s = Playing /\ step d ev s = jump s) \/
  (phase s = Ended /\ step d ev s = resetGame d s) \/
  (phase s = Playing /\ step d ev s = gameLoop d s) \/
  (phase s = Playing /\ exists id rnd,
     ev = TimerFires id rnd /\ step d ev s = generatePipe d rnd s) \/
  (exists id rnd, ev = TimerFires id rnd /\ step d ev s = s).
Proof.
  intros T. destruct ev as [|id rnd].
  - destruct (phase s) eqn:Hp.
    + left. auto.
    + right. left. split; [reflexivity|]. apply phase_Playing in Hp.
      destruct Hp as [Hs Ho]. cbn. unfold handleTap. now rewrite Hs, Ho.
    + right. right. left. split; [reflexivity|]. now apply handleTap_ended.
  - cbn [step]. destruct (lookupInterval id s) as [[|]|] eqn:Hl.
    + right. right. right. left. split; [|reflexivity].
      destruct (phase s) eqn:Hp; [|reflexivity|]; exfalso;
        unfold timersOk in T; rewrite Hp in T;
        unfold lookupInterval in Hl; rewrite T in Hl; discriminate.
    + right. right. right. right. left. split; [|eauto].
      destruct (phase s) eqn:Hp; [|reflexivity|]; exfalso;
        unfold timersOk in T; rewrite Hp in T;
        unfold lookupInterval in Hl; rewrite T in Hl; discriminate.
    + repeat right. eauto.
Qed.

(** Induction over the states reached by events that satisfy [P]. *)
Lemma run_induction (d : Dimensions) (P : Event -> bool) (I : Game -> Prop) :
  (forall s, timersOk s -> I s -> phase s = Idle -> I (handleTap d s)) ->
  (forall s, timersOk s -> I s -> phase s = Playing -> I (jump s)) ->
  (forall s, timersOk s -> I s -> phase s = Ended -> I (resetGame d s)) ->
  (forall s, timersOk s -> I s -> phase s = Playing -> I (gameLoop d s)) ->
  (forall s id rnd, timersOk s -> I s -> phase s = Playing ->
                    P (TimerFires id rnd) = true ->
                    I (generatePipe d rnd s)) ->
  forall evs s, forallb P evs = true -> timersOk s -> I s -> I (run d evs s).
Proof.
  intros Hstart Hjump Hreset Htick Hspawn.
  induction evs as [|ev evs IH]; intros s HP T HI; [exact HI|].
  cbn in HP. apply andb_true_iff in HP. destruct HP as [Hev HP].
  change (I (run d evs (step d ev s))).
  apply IH; [exact HP | now apply step_timersOk |].
  destruct (step_cases d ev s T)
    as [[Hp ->] | [[Hp ->] | [[Hp ->] | [[Hp ->] | [(Hp & id & rnd & -> & ->)
        | (id & rnd & -> & ->)]]]]]; eauto.
Qed.

Lemma reachable_induction (d : Dimensions) (I : Game -> Prop) :
  I (initialGame d) ->
  (forall s, timersOk s -> I s -> phase s = Idle -> I (handleTap d s)) ->
  (forall s, timersOk s -> I s -> phase s = Playing -> I (jump s)) ->
  (forall s, timersOk s -> I s -> phase s = Ended -> I (resetGame d s)) ->
  (forall s, timersOk s -> I s -> phase s = Playing -> I (gameLoop d s)) ->
  (forall s rnd, timersOk s -> I s -> phase s = Playing ->
                 I (generatePipe d rnd s)) ->
  forall s, reachable d s -> I s.
Proof.
  intros H0 Hstart Hjump Hreset Htick Hspawn s [evs ->].
  apply (run_induction d (fun _ => true) I); auto.
  - clear. induction evs; cbn; auto.
  - reflexivity.
Qed.

Lemma reachableInRange_reachable (d : Dimensions) (s : Game) :
  reachableInRange d s -> reachable d s.
Proof. intros (evs & _ & ->). now exists evs. Qed.

Lemma sampleAtPipe_inRange : reachableInRange sampleDims sampleAtPipe.
Proof. exists sampleAtPipeEvents. split; reflexivity. Qed.

Lemma sampleFalling_inRange : reachableInRange sampleDims sampleFalling.
Proof. exists sampleFallingEvents. split; reflexivity. Qed.

(** ** Starting a game *)

(** X1: an activate input in the Idle phase starts the game: the phase
    becomes Playing, two intervals are registered after the ones already in
    the table, the game loop under the next free handle and the pipe
    generator under the one after it, and the refs hold these two handles.
    The bird, the score and the obstacles are left as they are. *)
Theorem handleTap_idle_starts (d : Dimensions) (s : Game) :
  phase s = Idle ->
  let s' := handleTap d s in
  phase s' = Playing /\
  gameLoopRef s' = Some (nextTimer s) /\
  pipeGenerationRef s' = Some (Pos.succ (nextTimer s)) /\
  nextTimer s <> Pos.succ (nextTimer s) /\
  intervals s' = intervals s ++ [(nextTimer s, GameLoop);
                                 (Pos.succ (nextTimer s), PipeGeneration)] /\
  nextTimer s' = Pos.succ (Pos.succ (nextTimer s)) /\
  score s' = score s /\ pipes s' = pipes s /\
  birdY s' = birdY s /\ birdVelocity s' = birdVelocity s /\
  birdRotation s' = birdRotation s.
Proof.
  intros H. cbv zeta. rewrite (handleTap_idle d s H).
  assert (Ho : isGameOver s = false)
    by (unfold phase in H; destruct (isGameOver s); congruence).
  unfold phase. cbn. rewrite Ho.
  repeat split.
  - apply Pos.succ_discr.
  - now rewrite <- app_assoc.
Qed.

Lemma handleTap_idle_starts_witness :
  phase (initialGame sampleDims) = Idle /\
  phase (handleTap sampleDims (initialGame sampleDims)) = Playing /\
  intervals (handleTap sampleDims (initialGame sampleDims))
  = [(1%positive, GameLoop); (2%positive, PipeGeneration)].
Proof.
  pose proof (handleTap_idle_starts sampleDims (initialGame sampleDims)
                eq_refl) as H.
  cbv zeta in H. destruct H as (H1 & _ & _ & _ & H2 & _).
  split; [reflexivity|]. split; [exact H1 | exact H2].
Defined.

(** ** The phases *)

(** X2: the lifecycle of a reachable game.  An activate input leads from
    Idle to Playing, from Playing to Playing and from Ended to Idle.  A timer
    event leaves an Idle or Ended game exactly as it is.  In a Playing game a
    timer event is a tick, which leaves the game Playing or ends it, or a
    spawn, which leaves it Playing, or it does nothing.  So only a tick of a
    playing game leads to Ended, only an activate input leads out of Idle and
    out of Ended, and the game never goes from Idle to Ended, from Ended to
    Playing, or from Playing to Idle in one event. *)
Theorem phase_transitions (d : Dimensions) (ev : Event) (s : Game) :
  reachable d s ->
  match ev, phase s with
  | Activate, Idle => phase (step d ev s) = Playing
  | Activate, Playing => phase (step d ev s) = Playing
  | Activate, Ended => phase (step d ev s) = Idle
  | TimerFires _ rnd, Playing =>
      (step d ev s = gameLoop d s /\
       (phase (step d ev s) = Playing \/ phase (step d ev s) = Ended)) \/
      (step d ev s = generatePipe d rnd s /\
       phase (step d ev s) = Playing) \/
      step d ev s = s
  | TimerFires _ _, _ => step d ev s = s
  end.
Proof.
  intros R. apply reachable_timersOk in R.
  destruct ev as [|id rnd]; destruct (phase s) eqn:Hp.
  - cbn [step]. rewrite (handleTap_idle d s Hp).
    unfold phase in *. cbn. destruct (isGameOver s); congruence.
  - apply phase_Playing in Hp. destruct Hp as [Hs Ho].
    cbn [step]. unfold handleTap, phase. rewrite Hs, Ho. cbn.
    now rewrite Hs, Ho.
  - cbn [step]. now rewrite (handleTap_ended d s Hp).
  - apply step_timer_idle. unfold timersOk in R. now rewrite Hp in R.
  - cbn [step]. destruct (lookupInterval id s) as [[|]|].
    + left. split; [reflexivity|].
      destruct (gameLoop_started d s) as (Hst & _).
      apply phase_Playing in Hp. destruct Hp as [Hs Ho].
      unfold phase. rewrite Hst, Hs.
      destruct (isGameOver (gameLoop d s)); auto.
    + right. left. split; [reflexivity | exact Hp].
    + right. right. reflexivity.
  - apply step_timer_idle. unfold timersOk in R. now rewrite Hp in R.
Qed.

Lemma phase_transitions_witness :
  let ev := TimerFires 2%positive (Q2Qc (1 # 2)) in
  (step sampleDims ev sampleAtPipe = gameLoop sampleDims sampleAtPipe /\
   (phase (step sampleDims ev sampleAtPipe) = Playing \/
    phase (step sampleDims ev sampleAtPipe) = Ended)) \/
  (step sampleDims ev sampleAtPipe
   = generatePipe sampleDims (Q2Qc (1 # 2)) sampleAtPipe /\
   phase (step sampleDims ev sampleAtPipe) = Playing) \/
  step sampleDims ev sampleAtPipe = sampleAtPipe.
Proof.
  cbv zeta.
  pose proof (phase_transitions sampleDims
                (TimerFires 2%positive (Q2Qc (1 # 2)))
                sampleAtPipe sampleAtPipe_reachable) as H.
  assert (Hp : phase sampleAtPipe = Playing) by (vm_compute; reflexivity).
  rewrite Hp in H. exact H.
Defined.

(** ** Timers *)

(** X3: the timer discipline of reachable states.  While playing, exactly
    two intervals are live, under two distinct handles that the refs hold:
    firing the first runs the game loop, firing the second spawns a pipe, and
    any other handle does nothing.  In the other phases no interval is live
    and every timer event leaves the state as it is. *)
Theorem timer_discipline (d : Dimensions) (s : Game) :
  reachable d s ->
  (phase s = Playing ->
   exists g p,
     g <> p /\
     gameLoopRef s = Some g /\ pipeGenerationRef s = Some p /\
     intervals s = [(g, GameLoop); (p, PipeGeneration)] /\
     (forall rnd, step d (TimerFires g rnd) s = gameLoop d s) /\
     (forall rnd, step d (TimerFires p rnd) s = generatePipe d rnd s) /\
     (forall id rnd, id <> g -> id <> p ->
                     step d (TimerFires id rnd) s = s)) /\
  (phase s <> Playing ->
   intervals s = [] /\
   forall id rnd, step d (TimerFires id rnd) s = s).
Proof.
  intros R. apply reachable_timersOk in R. unfold timersOk in R.
  split.
  - intros Hp. rewrite Hp in R. destruct R as (g & p & Hne & Hg & Hpg & Hi).
    exists g, p. repeat split; try assumption.
    + intros rnd. unfold step, lookupInterval. rewrite Hi. cbn.
      now rewrite Pos.eqb_refl.
    + intros rnd. unfold step, lookupInterval. rewrite Hi. cbn.
      destruct (Pos.eqb g p) eqn:E; [apply Pos.eqb_eq in E; congruence|].
      now rewrite Pos.eqb_refl.
    + intros id rnd Hg' Hp'. unfold step, lookupInterval. rewrite Hi. cbn.
      destruct (Pos.eqb g id) eqn:E; [apply Pos.eqb_eq in E; congruence|].
      destruct (Pos.eqb p id) eqn:E'; [apply Pos.eqb_eq in E'; congruence|].
      reflexivity.
  - intros Hp.
    assert (Hi : intervals s = [])
      by (destruct (phase s); [exact R | congruence | exact R]).
    split; [exact Hi|]. intros id rnd. now apply step_timer_idle.
Qed.

Lemma timer_discipline_witness :
  exists g p,
    g <> p /\
    intervals sampleAtPipe = [(g, GameLoop); (p, PipeGeneration)] /\
    step sampleDims (TimerFires g 0) sampleAtPipe
    = gameLoop sampleDims sampleAtPipe.
Proof.
  destruct (timer_discipline sampleDims sampleAtPipe sampleAtPipe_reachable)
    as [H _].
  assert (Hp : phase sampleAtPipe = Playing) by (vm_compute; reflexivity).
  destruct (H Hp) as (g & p & Hne & _ & _ & Hi & Hg & _).
  exists g, p. split; [exact Hne|]. split; [exact Hi | apply Hg].
Defined.

(** X4: the cleanup of the component cancels both intervals.  From any
    reachable state it leaves no live interval, so that no timer event
    changes the state afterwards; it changes nothing of what is displayed. *)
Theorem unmount_cancels (d : Dimensions) (s : Game) :
  reachable d s ->
  intervals (unmount s) = [] /\
  observable (unmount s) = observable s /\
  (forall evs, forallb isTimerEvent evs = true ->
               run d evs (unmount s) = unmount s).
Proof.
  intros R. apply reachable_timersOk in R.
  assert (Hi : intervals (unmount s) = []).
  { unfold timersOk, phase in R. unfold unmount, clearRef.
    destruct s as [st ov sc ps y v r gl pg iv nt]; cbn in *.
    destruct ov; [|destruct st].
    - subst iv. destruct gl, pg; reflexivity.
    - destruct R as (g & p & Hne & -> & -> & ->). cbn.
      rewrite Pos.eqb_refl. cbn.
      destruct (Pos.eqb p g) eqn:E; [apply Pos.eqb_eq in E; congruence|].
      cbn. now rewrite Pos.eqb_refl.
    - subst iv. destruct gl, pg; reflexivity. }
  split; [exact Hi|]. split.
  - unfold unmount, clearRef, observable.
    destruct s as [st ov sc ps y v r [g|] [p|] iv nt]; reflexivity.
  - intros evs He. now apply run_timers_idle.
Qed.

Lemma unmount_cancels_witness :
  intervals sampleAtPipe <> [] /\
  intervals (unmount sampleAtPipe) = [] /\
  run sampleDims [TimerFires 1%positive 0; TimerFires 2%positive 0]
      (unmount sampleAtPipe)
  = unmount sampleAtPipe.
Proof.
  destruct (unmount_cancels sampleDims sampleAtPipe sampleAtPipe_reachable)
    as (H1 & _ & H2).
  split; [vm_compute; discriminate|].
  split; [exact H1 | apply H2; reflexivity].
Defined.

Lemma filter_and {A : Type} (f g : A -> bool) (l : list A) :
  filter f (filter g l) = filter (fun a => g a && f a) l.
Proof.
  induction l as [|a l IH]; cbn; [reflexivity|].
  destruct (g a); cbn; [destruct (f a)|]; now rewrite IH.
Qed.

(** X5: ending the game twice is the same as ending it once, as happens in
    a tick in which the bird leaves the playfield and also hits a pipe. *)
Theorem endGame_idempotent (s : Game) : endGame (endGame s) = endGame s.
Proof.
  unfold endGame, clearRef, clearInterval.
  destruct s as [st ov sc ps y v r [g|] [p|] iv nt]; cbn;
    try reflexivity; f_equal;
    rewrite ?filter_and; apply filter_ext; intros [id cb]; cbn.
  - destruct (Pos.eqb id g), (Pos.eqb id p); reflexivity.
  - destruct (Pos.eqb id g); reflexivity.
  - destruct (Pos.eqb id p); reflexivity.
Qed.

(** ** What is displayed *)

(** X6: the overlay of the start and game-over screens.  It is rendered
    exactly when the game is not Playing; in a reachable state that is
    exactly when no interval is live.  Its heading is "Game Over!", its
    button reads "Play Again" and the final score is written on it exactly
    in the Ended phase; otherwise the heading is "Flappy Bird" and the button
    reads "Start Game". *)
Theorem overlay_follows_phase (d : Dimensions) (s : Game) :
  (overlayVisible s = true <-> phase s <> Playing) /\
  (reachable d s -> (overlayVisible s = true <-> intervals s = [])) /\
  (phase s = Ended ->
   overlayTitle s = "Game Over!"%string /\
   buttonLabel s = "Play Again"%string /\ showsFinalScore s = true) /\
  (phase s <> Ended ->
   overlayTitle s = "Flappy Bird"%string /\
   buttonLabel s = "Start Game"%string /\ showsFinalScore s = false).
Proof.
  assert (V : overlayVisible s = true <-> phase s <> Playing).
  { unfold overlayVisible, phase.
    destruct (isGameOver s), (isGameStarted s); cbn;
      split; intros; congruence. }
  split; [exact V|]. split; [|split].
  - intros R. rewrite V. apply reachable_timersOk in R.
    unfold timersOk in R. destruct (phase s).
    + split; [intros _; exact R | discriminate].
    + destruct R as (g & p & _ & _ & _ & ->).
      split; [congruence | discriminate].
    + split; [intros _; exact R | discriminate].
  - intros H. apply phase_Ended in H.
    unfold overlayTitle, buttonLabel, showsFinalScore. now rewrite H.
  - intros H. unfold overlayTitle, buttonLabel, showsFinalScore, phase in *.
    destruct (isGameOver s); [congruence | auto].
Qed.

Lemma overlay_follows_phase_witness :
  overlayVisible sampleAtPipe = false /\
  overlayVisible sampleEnded = true /\
  overlayTitle sampleEnded = "Game Over!"%string /\
  overlayTitle (initialGame sampleDims) = "Flappy Bird"%string.
Proof.
  destruct (overlay_follows_phase sampleDims sampleAtPipe) as (V1 & _).
  destruct (overlay_follows_phase sampleDims sampleEnded) as (_ & V2 & T & _).
  destruct (overlay_follows_phase sampleDims (initialGame sampleDims))
    as (_ & _ & _ & I).
  split.
  - destruct (overlayVisible sampleAtPipe) eqn:E; [|reflexivity].
    exfalso. apply (proj1 V1 eq_refl). vm_compute. reflexivity.
  - split.
    + apply (V2 sampleEnded_reachable). vm_compute. reflexivity.
    + split.
      * apply T. vm_compute. reflexivity.
      * apply I. discriminate.
Defined.

(** ** Invariants of the flags *)

(** X7: in a reachable state the game-over flag is only set while the
    game-started flag is set, and an Idle game always shows the state of a
    fresh mount: score 0, no obstacle, the bird at rest at half the playfield
    height. *)
Theorem reachable_flags (d : Dimensions) (s : Game) :
  reachable d s ->
  (isGameOver s = true -> isGameStarted s = true) /\
  (phase s = Idle -> observable s = observable (initialGame d)).
Proof.
  revert s.
  apply (reachable_induction d
           (fun s => (isGameOver s = true -> isGameStarted s = true) /\
                     (phase s = Idle ->
                      observable s = observable (initialGame d)))).
  - split; [discriminate | reflexivity].
  - intros s _ _ Hp. rewrite (handleTap_idle d s Hp). cbn.
    split; [reflexivity|]. unfold phase. cbn.
    destruct (isGameOver s); discriminate.
  - intros s _ [H1 _] Hp. apply phase_Playing in Hp. destruct Hp as [Hs Ho].
    split; [exact H1|]. unfold phase. cbn. rewrite Hs, Ho. discriminate.
  - intros s _ _ _. split; [discriminate | reflexivity].
  - intros s _ _ Hp. apply phase_Playing in Hp. destruct Hp as [Hs Ho].
    destruct (gameLoop_started d s) as (Hst & _).
    split; [intros _; congruence|].
    unfold phase. rewrite Hst, Hs.
    destruct (isGameOver (gameLoop d s)); discriminate.
  - intros s rnd _ [H1 _] Hp. apply phase_Playing in Hp.
    destruct Hp as [Hs Ho].
    split; [exact H1|]. unfold phase. cbn. rewrite Hs, Ho. discriminate.
Qed.

Lemma reachable_flags_witness :
  isGameStarted sampleEnded = true /\
  observable (handleTap sampleDims sampleEnded)
  = observable (initialGame sampleDims).
Proof.
  destruct (reachable_flags sampleDims sampleEnded sampleEnded_reachable)
    as [H1 _].
  destruct (reachable_flags sampleDims (handleTap sampleDims sampleEnded)
              (reachable_step sampleDims Activate sampleEnded
                 sampleEnded_reachable)) as [_ H2].
  split.
  - apply H1. vm_compute. reflexivity.
  - apply H2. vm_compute. reflexivity.
Defined.

(** ** Invariants of the obstacles *)

(** Where an obstacle that is in the collection after a tick comes from. *)
Lemma gameLoop_pipes_elem (d : Dimensions) (s : Game) (q : Pipe) :
  In q (pipes (gameLoop d s)) ->
  exists i p,
    nth_error (pipes s) i = Some p /\
    geometry q = geometry (advance p) /\
    onScreen q = true /\
    passed q
    = passed p
      || (Qcltb (x q + PIPE_WIDTH) birdX
          && negb (existsb (collides d (birdY (gameLoop d s)))
                           (firstn (S i) (map advance (pipes s))))).
Proof.
  rewrite gameLoop_birdY. unfold gameLoop, updatePipes.
  destruct (checkBoundary_bird d (integrate s)) as (Hy & _ & _ & Hp & _).
  rewrite Hy, Hp. change (pipes (integrate s)) with (pipes s).
  destruct (scanPipes_spec d (birdY (integrate s)) (map advance (pipes s))
              (checkBoundary d (integrate s))) as (Hl & Hn & _).
  destruct (scanPipes d (birdY (integrate s)) (map advance (pipes s))
              (checkBoundary d (integrate s))) as [scanned s'].
  cbn [fst snd pipes setPipes] in *.
  intros Hq. apply filter_In in Hq. destruct Hq as [Hq Hon].
  apply In_nth_error in Hq. destruct Hq as [i Hi].
  destruct (nth_error (map advance (pipes s)) i) as [m|] eqn:Hm.
  - destruct (Hn i m Hm) as (q' & Hq' & Hg & Hf).
    assert (q' = q) by congruence. subst q'.
    rewrite nth_error_map in Hm.
    destruct (nth_error (pipes s) i) as [p|] eqn:Hpi; [|discriminate].
    injection Hm as <-.
    exists i, p. split; [exact Hpi|]. split; [exact Hg|].
    split; [exact Hon|].
    assert (Hx : x q = x (advance p)) by (unfold geometry in Hg; congruence).
    rewrite Hx. exact Hf.
  - apply nth_error_None in Hm. rewrite <- Hl in Hm.
    assert (Hlt : (i < length scanned)%nat)
      by (apply nth_error_Some; congruence).
    lia.
Qed.

Lemma StronglySorted_snoc {A : Type} (R : A -> A -> Prop) (l : list A) (b : A) :
  StronglySorted R l -> Forall (fun a => R a b) l ->
  StronglySorted R (l ++ [b]).
Proof.
  induction 1 as [|a l Hs IH Ha]; intros Hb; cbn.
  - constructor; constructor.
  - inversion Hb as [|? ? Hab Hb']; subst. constructor.
    + apply IH, Hb'.
    + apply Forall_app. split; [exact Ha | now constructor].
Qed.

Lemma advance_keeps_order (l : list Pipe) :
  StronglySorted Qcle (map x l) ->
  StronglySorted Qcle (map x (filter onScreen (map advance l))).
Proof.
  induction l as [|p l IH]; cbn; intros Hs; [constructor|].
  inversion Hs as [|? ? Hs' Hp]; subst.
  destruct (onScreen (advance p)); [|now apply IH].
  cbn. constructor; [now apply IH|].
  apply Forall_forall. intros v Hv.
  apply in_map_iff in Hv. destruct Hv as (q & <- & Hq).
  apply filter_In in Hq. destruct Hq as [Hq _].
  apply in_map_iff in Hq. destruct Hq as (p' & <- & Hp').
  rewrite Forall_forall in Hp. specialize (Hp (x p') (in_map x l p' Hp')).
  cbn. unfold PIPE_SPEED. to_Q. lra.
Qed.

Lemma gameLoop_pipes_x (d : Dimensions) (s : Game) :
  map x (pipes (gameLoop d s))
  = map x (filter onScreen (map advance (pipes s))).
Proof.
  pose proof (gameLoop_pipes_geometry d s) as G.
  apply (f_equal (map (fun g : Qc * Qc * Qc => fst (fst g)))) in G.
  rewrite !map_map in G. exact G.
Qed.

(** X8: where the obstacles of a reachable state are.  No obstacle is
    right of the playfield's right edge; the obstacles are ordered from left
    to right in the collection, oldest first; and on a playfield whose right
    edge is right of -PIPE_WIDTH, every obstacle is right of -PIPE_WIDTH. *)
Theorem pipes_placed (d : Dimensions) (s : Game) :
  reachable d s ->
  Forall (fun p => x p <= width d) (pipes s) /\
  StronglySorted Qcle (map x (pipes s)) /\
  (- PIPE_WIDTH < width d -> Forall (fun p => - PIPE_WIDTH < x p) (pipes s)).
Proof.
  revert s.
  apply (reachable_induction d
    (fun s =>
       Forall (fun p => x p <= width d) (pipes s) /\
       StronglySorted Qcle (map x (pipes s)) /\
       (- PIPE_WIDTH < width d ->
        Forall (fun p => - PIPE_WIDTH < x p) (pipes s)))).
  - cbn. repeat split; constructor.
  - intros s _ I Hp. rewrite (handleTap_idle d s Hp). exact I.
  - intros s _ I _. exact I.
  - intros s _ _ _. cbn. repeat split; constructor.
  - intros s _ (I1 & I2 & I3) _. split; [|split].
    + apply Forall_forall. intros q Hq.
      destruct (gameLoop_pipes_elem d s q Hq) as (i & p & Hi & Hg & _).
      apply nth_error_In in Hi. rewrite Forall_forall in I1.
      specialize (I1 p Hi).
      unfold geometry in Hg. cbn in Hg. injection Hg as Hxq _ _.
      rewrite Hxq. unfold PIPE_SPEED. to_Q. lra.
    + rewrite gameLoop_pipes_x. now apply advance_keeps_order.
    + intros _. apply Forall_forall. intros q Hq.
      destruct (gameLoop_pipes_elem d s q Hq) as (_ & _ & _ & _ & Hon & _).
      now apply onScreen_spec.
  - intros s rnd _ (I1 & I2 & I3) _. cbn [generatePipe setPipes pipes].
    split; [|split].
    + apply Forall_app. split; [exact I1|]. constructor; [|constructor].
      cbn. apply Qcle_refl.
    + rewrite map_app. cbn. apply StronglySorted_snoc; [exact I2|].
      apply Forall_forall. intros v Hv.
      apply in_map_iff in Hv. destruct Hv as (p & <- & Hp).
      rewrite Forall_forall in I1. exact (I1 p Hp).
    + intros Hw. apply Forall_app. split; [now apply I3|].
      constructor; [exact Hw | constructor].
Qed.

Lemma pipes_placed_witness :
  Forall (fun p => - PIPE_WIDTH < x p) (pipes sampleAtPipe) /\
  StronglySorted Qcle (map x (pipes sampleAtPipe)).
Proof.
  destruct (pipes_placed sampleDims sampleAtPipe sampleAtPipe_reachable)
    as (_ & H2 & H3).
  split; [apply H3; vm_compute; reflexivity | exact H2].
Defined.

(** A tick that leaves the game playing has hit no pipe. *)
Lemma gameLoop_playing_no_hit (d : Dimensions) (s : Game) (i : nat) :
  isGameOver (gameLoop d s) = false ->
  existsb (collides d (birdY (gameLoop d s)))
          (firstn i (map advance (pipes s))) = false.
Proof.
  intros Ho. rewrite gameLoop_over in Ho.
  apply orb_false_iff in Ho. destruct Ho as [_ Ho].
  destruct (existsb _ (firstn i _)) eqn:E; [|reflexivity].
  apply existsb_exists in E. destruct E as (m & Hm & Hc).
  assert (Hex : existsb (collides d (birdY (gameLoop d s)))
                        (map advance (pipes s)) = true).
  { apply existsb_exists. exists m. split; [|exact Hc].
    rewrite <- (firstn_skipn i). apply in_or_app. now left. }
  congruence.
Qed.

(** The flags against the positions: a set flag means the trailing edge is
    left of the bird; and unless the game has ended, on a playfield at least
    as wide as the bird's distance to a trailing edge at its own position,
    a clear flag means the trailing edge is not left of the bird. *)
Lemma reachable_flags_positions (d : Dimensions) (s : Game) :
  reachable d s ->
  Forall (fun p => passed p = true -> x p + PIPE_WIDTH < birdX) (pipes s) /\
  (birdX - PIPE_WIDTH <= width d -> phase s <> Ended ->
   Forall (fun p => passed p = false -> birdX <= x p + PIPE_WIDTH) (pipes s)).
Proof.
  revert s.
  apply (reachable_induction d
    (fun s =>
       Forall (fun p => passed p = true -> x p + PIPE_WIDTH < birdX)
              (pipes s) /\
       (birdX - PIPE_WIDTH <= width d -> phase s <> Ended ->
        Forall (fun p => passed p = false -> birdX <= x p + PIPE_WIDTH)
               (pipes s)))).
  - cbn. split; intros; constructor.
  - intros s _ [I1 I2] Hp. rewrite (handleTap_idle d s Hp).
    split; [exact I1|]. intros Hw _. apply I2; [exact Hw | congruence].
  - intros s _ [I1 I2] Hp.
    split; [exact I1|]. intros Hw _. apply I2; [exact Hw | congruence].
  - intros s _ _ _. cbn. split; intros; constructor.
  - intros s _ [I1 I2] Hp. split.
    + apply Forall_forall. intros q Hq Hf.
      destruct (gameLoop_pipes_elem d s q Hq) as (i & p & Hi & Hg & _ & Hpq).
      rewrite Hf in Hpq. symmetry in Hpq. apply orb_true_iff in Hpq.
      destruct Hpq as [Hpp | Hc].
      * apply nth_error_In in Hi. rewrite Forall_forall in I1.
        specialize (I1 p Hi Hpp).
        assert (Hx : x q = x p - PIPE_SPEED)
          by (unfold geometry in Hg; cbn in Hg; congruence).
        rewrite Hx. unfold PIPE_SPEED, PIPE_WIDTH, birdX in *. to_Q. lra.
      * apply andb_true_iff in Hc. destruct Hc as [Hc _].
        now apply Qcltb_lt.
    + intros Hw He. apply Forall_forall. intros q Hq Hf.
      destruct (gameLoop_pipes_elem d s q Hq) as (i & p & Hi & Hg & _ & Hpq).
      assert (Ho : isGameOver (gameLoop d s) = false).
      { destruct (isGameOver (gameLoop d s)) eqn:E; [|reflexivity].
        exfalso. apply He. now apply phase_Ended. }
      rewrite (gameLoop_playing_no_hit d s (S i) Ho) in Hpq. cbn in Hpq.
      rewrite andb_true_r, Hf in Hpq. symmetry in Hpq.
      apply orb_false_iff in Hpq. destruct Hpq as [_ Hc].
      now apply Qcltb_ge.
  - intros s rnd _ [I1 I2] Hp. cbn [generatePipe setPipes pipes]. split.
    + apply Forall_app. split; [exact I1|].
      constructor; [discriminate | constructor].
    + intros Hw _. apply Forall_app. split.
      * apply I2; [exact Hw | congruence].
      * constructor; [|constructor]. intros _. cbn.
        unfold PIPE_WIDTH, birdX in *. to_Q. lra.
Qed.

(** X9: what the passed flag of an obstacle says in a reachable state.  A
    set flag means that the trailing edge is left of the bird.  While
    playing, on a playfield whose width is at least 100 - PIPE_WIDTH, the
    flag is set exactly when the trailing edge is left of the bird. *)
Theorem flag_marks_passage (d : Dimensions) (s : Game) :
  reachable d s ->
  Forall (fun p => passed p = true -> x p + PIPE_WIDTH < birdX) (pipes s) /\
  (birdX - PIPE_WIDTH <= width d -> phase s = Playing ->
   Forall (fun p => passed p = true <-> x p + PIPE_WIDTH < birdX) (pipes s)).
Proof.
  intros R. destruct (reachable_flags_positions d s R) as [H1 H2].
  split; [exact H1|]. intros Hw Hp.
  assert (He : phase s <> Ended) by congruence.
  specialize (H2 Hw He). rewrite Forall_forall in *.
  intros p Hin. split; [now apply H1|].
  intros Hx. destruct (passed p) eqn:Hf; [reflexivity|].
  exfalso. exact (Qclt_not_le _ _ Hx (H2 p Hin Hf)).
Qed.

Lemma flag_marks_passage_witness :
  Forall (fun p => passed p = true <-> x p + PIPE_WIDTH < birdX)
         (pipes (gameLoop sampleDims sampleScoring)).
Proof.
  assert (R : reachable sampleDims (gameLoop sampleDims sampleScoring)).
  { exists (sampleScoringEvents ++ [TimerFires 1%positive 0]).
    unfold run. rewrite fold_left_app. vm_compute. reflexivity. }
  destruct (flag_marks_passage sampleDims _ R) as [_ H].
  apply H; vm_compute; [discriminate | reflexivity].
Defined.

(** ** The score *)

Lemma flagged_advance (l : list Pipe) : flagged (map advance l) = flagged l.
Proof.
  unfold flagged. induction l as [|p l IH]; cbn; [reflexivity|].
  destruct (passed p); cbn; now rewrite IH.
Qed.

Lemma flagged_filter (f : Pipe -> bool) (l : list Pipe) :
  (flagged (filter f l) <= flagged l)%nat.
Proof.
  unfold flagged. induction l as [|p l IH]; cbn; [lia|].
  destruct (f p); cbn; destruct (passed p); cbn; lia.
Qed.

(** The loop raises the score by the number of flags it sets. *)
Lemma scanPipes_flagged (d : Dimensions) (y : Qc) (ps : list Pipe) :
  forall s,
    (score (snd (scanPipes d y ps s)) - score s
     = Z.of_nat (flagged (fst (scanPipes d y ps s))) - Z.of_nat (flagged ps))%Z.
Proof.
  induction ps as [|p rest IH]; intros s; cbn [scanPipes].
  - cbn. lia.
  - destruct (collides d y p).
    + cbn [fst snd]. destruct (endGame_fields s) as (_ & _ & -> & _). lia.
    + destruct (passes p) eqn:Hp.
      * specialize (IH (incrementScore s)).
        destruct (scanPipes d y rest (incrementScore s)) as [rest' s'].
        cbn [fst snd] in *. unfold passes in Hp.
        apply andb_true_iff in Hp. destruct Hp as [Hf _].
        apply negb_true_iff in Hf.
        unfold flagged in *. cbn [filter markPassed passed length].
        rewrite Hf. cbn [incrementScore setScore score] in IH.
        cbn [length]. lia.
      * specialize (IH s). destruct (scanPipes d y rest s) as [rest' s'].
        cbn [fst snd] in *. unfold flagged in *. cbn [filter].
        destruct (passed p); cbn [length]; lia.
Qed.

(** X10: in a reachable state the score is at least the number of
    obstacles in the collection whose flag is set; in particular it is never
    negative. *)
Theorem score_counts_flags (d : Dimensions) (s : Game) :
  reachable d s ->
  (0 <= score s)%Z /\ (Z.of_nat (flagged (pipes s)) <= score s)%Z.
Proof.
  intros R.
  enough (H : (Z.of_nat (flagged (pipes s)) <= score s)%Z) by (split; lia).
  revert s R.
  apply (reachable_induction d
           (fun s => (Z.of_nat (flagged (pipes s)) <= score s)%Z)).
  - cbn. lia.
  - intros s _ I Hp. rewrite (handleTap_idle d s Hp). exact I.
  - intros s _ I _. exact I.
  - intros s _ _ _. cbn. lia.
  - intros s _ I _. unfold gameLoop, updatePipes.
    set (s2 := checkBoundary d (integrate s)).
    assert (Hp2 : pipes s2 = pipes s)
      by (destruct (checkBoundary_bird d (integrate s))
            as (_ & _ & _ & H & _); exact H).
    assert (Hs2 : score s2 = score s)
      by (destruct (checkBoundary_bird d (integrate s))
            as (_ & _ & _ & _ & H); exact H).
    pose proof (scanPipes_flagged d (birdY s2) (map advance (pipes s2)) s2)
      as Hsc.
    destruct (scanPipes d (birdY s2) (map advance (pipes s2)) s2)
      as [scanned s'].
    cbn [fst snd setPipes pipes score] in *.
    rewrite flagged_advance, Hp2, Hs2 in Hsc.
    pose proof (flagged_filter onScreen scanned). lia.
  - intros s rnd _ I _. cbn [generatePipe setPipes pipes score].
    unfold flagged in *. rewrite filter_app, length_app. cbn. lia.
Qed.

Lemma score_counts_flags_witness :
  (1 <= score (gameLoop sampleDims sampleScoring))%Z.
Proof.
  assert (R : reachable sampleDims (gameLoop sampleDims sampleScoring)).
  { exists (sampleScoringEvents ++ [TimerFires 1%positive 0]).
    unfold run. rewrite fold_left_app. vm_compute. reflexivity. }
  destruct (score_counts_flags sampleDims _ R) as [_ H].
  assert (F : flagged (pipes (gameLoop sampleDims sampleScoring)) = 1%nat)
    by (vm_compute; reflexivity).
  rewrite F in H. exact H.
Defined.

(** ** The ground and ceiling test against the score *)

Lemma drawInRange_spec (id : TimerId) (rnd : Qc) :
  drawInRange (TimerFires id rnd) = true <-> 0 <= rnd /\ rnd < 1.
Proof.
  cbn. rewrite andb_true_iff, negb_true_iff, Qcltb_ge, Qcltb_lt. tauto.
Qed.

(** With draws in range on a playfield that is high enough, every gap
    keeps 100 of clearance from the top and from the ground line. *)
Lemma inRange_gaps (d : Dimensions) (s : Game) :
  PIPE_GAP + Q2Qc 200 <= height d ->
  reachableInRange d s ->
  Forall (fun p => Q2Qc 100 <= topHeight p /\
                   height d - bottomHeight p <= height d - Q2Qc 100)
         (pipes s).
Proof.
  intros HH (evs & He & ->).
  apply (run_induction d drawInRange
    (fun s => Forall (fun p => Q2Qc 100 <= topHeight p /\
                               height d - bottomHeight p
                               <= height d - Q2Qc 100) (pipes s)));
    try exact He; try reflexivity.
  - intros s _ I Hp. rewrite (handleTap_idle d s Hp). exact I.
  - intros s _ I _. exact I.
  - intros s _ _ _. constructor.
  - intros s _ I _. apply Forall_forall. intros q Hq.
    destruct (gameLoop_pipes_elem d s q Hq) as (i & p & Hi & Hg & _).
    apply nth_error_In in Hi. rewrite Forall_forall in I.
    specialize (I p Hi).
    unfold geometry in Hg. cbn in Hg. injection Hg as _ Ht Hb.
    now rewrite Ht, Hb.
  - intros s id rnd _ I _ Hr. apply drawInRange_spec in Hr.
    destruct Hr as [H0 H1].
    cbn [generatePipe setPipes pipes]. apply Forall_app.
    split; [exact I|]. constructor; [|constructor].
    cbn. unfold PIPE_GAP in *. split; to_Q; nra.
  - constructor.
Qed.

(** When every pipe that would score is hit, the loop scores nothing and
    sets no flag. *)
Lemma scanPipes_nothing_to_score (d : Dimensions) (y : Qc) (ps : list Pipe) :
  (forall m, In m ps -> passes m = true -> collides d y m = true) ->
  forall s,
    fst (scanPipes d y ps s) = ps /\
    score (snd (scanPipes d y ps s)) = score s.
Proof.
  induction ps as [|p rest IH]; intros H s; cbn [scanPipes].
  - split; reflexivity.
  - destruct (collides d y p) eqn:Hc.
    + cbn. destruct (endGame_fields s) as (_ & _ & -> & _). now split.
    + destruct (passes p) eqn:Hp.
      * rewrite (H p (or_introl eq_refl) Hp) in Hc. discriminate.
      * destruct (IH (fun m Hm => H m (or_intror Hm)) s) as [H1 H2].
        destruct (scanPipes d y rest s) as [rest' s'].
        cbn [fst snd] in *. now rewrite H1, H2.
Qed.

(** X11: on a playfield at least PIPE_GAP + 200 high and 100 - PIPE_WIDTH
    wide, with every random draw in [0, 1): a tick of a playing game in
    which the ground or ceiling test fires adds nothing to the score and sets
    no flag; the obstacles after it are the advanced ones that are still on
    screen, flags as before. *)
Theorem boundary_hit_never_scores (d : Dimensions) (s : Game) :
  PIPE_GAP + Q2Qc 200 <= height d ->
  birdX - PIPE_WIDTH <= width d ->
  reachableInRange d s ->
  phase s = Playing ->
  hitsBoundary d (birdY (gameLoop d s)) = true ->
  phase (gameLoop d s) = Ended /\
  score (gameLoop d s) = score s /\
  pipes (gameLoop d s) = filter onScreen (map advance (pipes s)).
Proof.
  intros HH HW R Hp Hb.
  pose proof (inRange_gaps d s HH R) as G.
  destruct (reachable_flags_positions d s (reachableInRange_reachable d s R))
    as [_ F].
  assert (He : phase s <> Ended) by congruence.
  specialize (F HW He).
  split.
  { apply phase_Ended. rewrite gameLoop_over, Hb.
    now rewrite orb_true_r. }
  assert (Hall : forall m, In m (map advance (pipes s)) ->
                   passes m = true ->
                   collides d (birdY (gameLoop d s)) m = true).
  { intros m Hm Hpass. apply in_map_iff in Hm. destruct Hm as (p & <- & Hin).
    rewrite Forall_forall in G, F.
    destruct (G p Hin) as [Gt Gb].
    unfold passes in Hpass. apply andb_true_iff in Hpass.
    destruct Hpass as [Hf Hx]. apply negb_true_iff in Hf. cbn in Hf.
    specialize (F p Hin Hf). apply Qcltb_lt in Hx.
    apply hitsBoundary_spec in Hb.
    apply collides_spec. cbn [advance x topHeight bottomHeight] in *.
    unfold birdX, birdRadius, PIPE_WIDTH, PIPE_SPEED in *.
    split; [to_Q; lra|]. split; [to_Q; lra|].
    destruct Hb as [Hg | Hc]; [right | left]; to_Q; lra. }
  rewrite gameLoop_birdY in Hall. unfold gameLoop, updatePipes.
  destruct (checkBoundary_bird d (integrate s)) as (Hy & _ & _ & Hp2 & Hs2).
  rewrite Hy, Hp2. change (pipes (integrate s)) with (pipes s).
  destruct (scanPipes_nothing_to_score d (birdY (integrate s))
              (map advance (pipes s)) Hall (checkBoundary d (integrate s)))
    as [H1 H2].
  destruct (scanPipes d (birdY (integrate s)) (map advance (pipes s))
              (checkBoundary d (integrate s))) as [scanned s'].
  cbn [fst snd setPipes pipes score] in *.
  rewrite H1, H2, Hs2. split; reflexivity.
Qed.

Lemma boundary_hit_never_scores_witness :
  phase sampleFalling = Playing /\
  phase (gameLoop sampleDims sampleFalling) = Ended /\
  score (gameLoop sampleDims sampleFalling) = score sampleFalling.
Proof.
  assert (Hp : phase sampleFalling = Playing) by (vm_compute; reflexivity).
  assert (HH : PIPE_GAP + Q2Qc 200 <= height sampleDims)
    by (vm_compute; discriminate).
  assert (HW : birdX - PIPE_WIDTH <= width sampleDims)
    by (vm_compute; discriminate).
  assert (Hb : hitsBoundary sampleDims
                 (birdY (gameLoop sampleDims sampleFalling)) = true)
    by (vm_compute; reflexivity).
  destruct (boundary_hit_never_scores sampleDims sampleFalling HH HW
              sampleFalling_inRange Hp Hb) as (H1 & H2 & _).
  split; [exact Hp|]. split; [exact H1 | exact H2].
Defined.

(** ** Spawning on a playfield that is too low *)

(** X12: nothing guards the spawn against a playfield lower than
    PIPE_GAP + 200.  There the obstacle is appended all the same, at the
    right edge and with a clear flag, and its top barrier is at most 100
    high: the least height of a top barrier on a taller playfield is the
    greatest one here. *)
Theorem spawn_on_low_playfield (d : Dimensions) (rnd : Qc) (s : Game) :
  height d < PIPE_GAP + Q2Qc 200 ->
  0 <= rnd ->
  exists p,
    pipes (generatePipe d rnd s) = pipes s ++ [p] /\
    topHeight p <= Q2Qc 100 /\
    x p = width d /\ passed p = false.
Proof.
  intros HH H0. exists (newPipe d rnd).
  split; [reflexivity|]. split; [|split; reflexivity].
  cbn. unfold PIPE_GAP in *. to_Q. nra.
Qed.

Lemma spawn_on_low_playfield_witness :
  exists p,
    pipes (generatePipe lowDims (Q2Qc (1 # 2)) (initialGame lowDims)) = [p] /\
    topHeight p <= Q2Qc 100.
Proof.
  destruct (spawn_on_low_playfield lowDims (Q2Qc (1 # 2))
              (initialGame lowDims)) as (p & H1 & H2 & _);
    [vm_compute; reflexivity | vm_compute; discriminate |].
  exists p. split; [exact H1 | exact H2].
Defined.

(** ** Obstacles leave the collection only after they have been passed *)

(** X15: while playing, on a playfield at least 100 - PIPE_WIDTH wide, a
    tick removes no obstacle whose flag is still clear: every such obstacle
    of a reachable state is still in the collection after the tick, moved
    left by PIPE_SPEED. *)
Theorem unpassed_pipes_survive (d : Dimensions) (s : Game) (p : Pipe) :
  birdX - PIPE_WIDTH <= width d ->
  reachable d s ->
  phase s = Playing ->
  In p (pipes s) ->
  passed p = false ->
  exists q, In q (pipes (gameLoop d s)) /\
            geometry q = (x p - PIPE_SPEED, topHeight p, bottomHeight p).
Proof.
  intros HW R Hp Hin Hf.
  destruct (reachable_flags_positions d s R) as [_ F].
  assert (He : phase s <> Ended) by congruence.
  specialize (F HW He). rewrite Forall_forall in F.
  specialize (F p Hin Hf).
  assert (Hon : onScreen (advance p) = true).
  { apply onScreen_spec. cbn [advance x].
    unfold birdX, PIPE_WIDTH, PIPE_SPEED in *. to_Q. lra. }
  assert (Hg : In (geometry (advance p))
                  (map geometry (pipes (gameLoop d s)))).
  { rewrite gameLoop_pipes_geometry. apply in_map, filter_In.
    split; [now apply in_map | exact Hon]. }
  apply in_map_iff in Hg. destruct Hg as (q & Hq & Hqin).
  exists q. split; [exact Hqin | exact Hq].
Qed.

Lemma unpassed_pipes_survive_witness :
  exists q, In q (pipes (gameLoop sampleDims sampleAtPipe)) /\
            geometry q = (Q2Qc 20 - PIPE_SPEED, Q2Qc 175, Q2Qc 425).
Proof.
  apply (unpassed_pipes_survive sampleDims sampleAtPipe
           (mkPipe (Q2Qc 20) (Q2Qc 175) (Q2Qc 425) false)).
  - vm_compute. discriminate.
  - exact sampleAtPipe_reachable.
  - vm_compute. reflexivity.
  - vm_compute. left. f_equal; apply Qc_is_canon; reflexivity.
  - reflexivity.
Defined.
